(** * Vercel daemon example client: [examples/basic_operations.py]

    A shallow embedding of the example client of the FGP Vercel daemon and
    the verification of its documented behaviour.

    The client opens a Unix stream socket, writes one line of JSON, reads
    until a newline byte or end of stream, decodes what it has read and
    pretty-prints some fields.  The embedding has four layers:

    - text and bytes: Python [str] as a list of code points, [bytes] as a
      list of [byte], with strict UTF-8 in both directions;
    - the [json] module: values, [json_loads] (a lexer and a pushdown
      parser, both total folds over their input) and [json_dumps];
    - the socket: the environment of one call is a script of what
      [connect], [sendall] and the successive [recv] calls do, and every
      call returns the trace of socket operations it issued;
    - the routines of the file: [call_daemon], [list_projects] and
      [list_deployments], over a small monad that threads standard output
      and the trace and propagates exceptions. *)

From Stdlib Require Import String Ascii Strings.Byte.
From Stdlib Require Import List NArith ZArith Bool Lia.
Import ListNotations.

Open Scope N_scope.
Open Scope list_scope.

(** ** Text and bytes *)

(** A Python [str] is a sequence of code points. *)
Definition pystr := list N.

(** A Python [bytes] object. *)
Definition bytes := list byte.

Definition in_range (lo hi c : N) : bool := (lo <=? c) && (c <=? hi).

(** Sequencing of partial computations. *)
Definition obind {A B : Type} (o : option A) (f : A -> option B) : option B :=
  match o with
  | Some a => f a
  | None => None
  end.

Definition ocons {A : Type} (a : A) (o : option (list A)) : option (list A) :=
  option_map (cons a) o.

Definition oapp {A : Type} (l : list A) (o : option (list A)) : option (list A) :=
  option_map (app l) o.

Fixpoint traverse {A B : Type} (f : A -> option B) (l : list A) : option (list B) :=
  match l with
  | [] => Some []
  | a :: l' => obind (f a) (fun b => ocons b (traverse f l'))
  end.

Module Utf8.

(** Continuation byte [10xxxxxx]. *)
Definition is_cont (b : N) : bool := in_range 0x80 0xBF b.

Definition cont_bits (b : N) : N := N.land b 0x3F.

(** Strict UTF-8 as [bytes.decode()] applies it: shortest form only, no
    surrogates, nothing above U+10FFFF, no truncated sequence.  [None]
    is [UnicodeDecodeError]. *)
Fixpoint decode_N (bs : list N) : option pystr :=
  match bs with
  | [] => Some []
  | b0 :: r =>
    if b0 <? 0x80 then ocons b0 (decode_N r)
    else if in_range 0xC2 0xDF b0 then
      match r with
      | b1 :: r1 =>
        if is_cont b1
        then ocons (N.lor (N.shiftl (N.land b0 0x1F) 6) (cont_bits b1))
                   (decode_N r1)
        else None
      | _ => None
      end
    else if in_range 0xE0 0xEF b0 then
      match r with
      | b1 :: b2 :: r2 =>
        let lo := if b0 =? 0xE0 then 0xA0 else 0x80 in
        let hi := if b0 =? 0xED then 0x9F else 0xBF in
        if in_range lo hi b1 && is_cont b2
        then ocons (N.lor (N.shiftl (N.land b0 0x0F) 12)
                      (N.lor (N.shiftl (cont_bits b1) 6) (cont_bits b2)))
                   (decode_N r2)
        else None
      | _ => None
      end
    else if in_range 0xF0 0xF4 b0 then
      match r with
      | b1 :: b2 :: b3 :: r3 =>
        let lo := if b0 =? 0xF0 then 0x90 else 0x80 in
        let hi := if b0 =? 0xF4 then 0x8F else 0xBF in
        if in_range lo hi b1 && is_cont b2 && is_cont b3
        then ocons (N.lor (N.shiftl (N.land b0 0x07) 18)
                      (N.lor (N.shiftl (cont_bits b1) 12)
                         (N.lor (N.shiftl (cont_bits b2) 6) (cont_bits b3))))
                   (decode_N r3)
        else None
      | _ => None
      end
    else None
  end.

Definition decode (bs : bytes) : option pystr :=
  decode_N (map Byte.to_N bs).

Definition is_surrogate (c : N) : bool := in_range 0xD800 0xDFFF c.

(** The bytes of one code point; [None] is [UnicodeEncodeError]
    (a surrogate) or a value that is no code point. *)
Definition encode_cp (c : N) : option (list N) :=
  if c <? 0x80 then Some [c]
  else if c <? 0x800 then
    Some [N.lor 0xC0 (N.shiftr c 6); N.lor 0x80 (N.land c 0x3F)]
  else if c <? 0x10000 then
    if is_surrogate c then None
    else Some [N.lor 0xE0 (N.shiftr c 12);
               N.lor 0x80 (N.land (N.shiftr c 6) 0x3F);
               N.lor 0x80 (N.land c 0x3F)]
  else if c <? 0x110000 then
    Some [N.lor 0xF0 (N.shiftr c 18);
          N.lor 0x80 (N.land (N.shiftr c 12) 0x3F);
          N.lor 0x80 (N.land (N.shiftr c 6) 0x3F);
          N.lor 0x80 (N.land c 0x3F)]
  else None.

Definition encode (s : pystr) : option bytes :=
  obind (traverse encode_cp s)
        (fun l => traverse Byte.of_N (concat l)).

End Utf8.

(** The text of a literal of the source file.  Rocq keeps a string literal
    as its UTF-8 bytes, Python as its code points. *)
Definition py (s : string) : pystr :=
  match Utf8.decode (list_byte_of_string s) with
  | Some t => t
  | None => []
  end.
Arguments py s%_string.

(** A bytes literal of the source file. *)
Definition bytes_lit (s : string) : bytes := list_byte_of_string s.
Arguments bytes_lit s%_string.

(** [str.isspace] on one code point: what [str.strip()] removes. *)
Definition py_isspace (c : N) : bool :=
  in_range 0x09 0x0D c || in_range 0x1C 0x20 c || (c =? 0x85) || (c =? 0xA0)
  || (c =? 0x1680) || in_range 0x2000 0x200A c || (c =? 0x2028)
  || (c =? 0x2029) || (c =? 0x202F) || (c =? 0x205F) || (c =? 0x3000).

Fixpoint dropwhile {A : Type} (p : A -> bool) (l : list A) : list A :=
  match l with
  | [] => []
  | a :: l' => if p a then dropwhile p l' else l
  end.

Definition py_lstrip (s : pystr) : pystr := dropwhile py_isspace s.
Definition py_rstrip (s : pystr) : pystr := rev (dropwhile py_isspace (rev s)).

(** [str.strip()] *)
Definition py_strip (s : pystr) : pystr := py_rstrip (py_lstrip s).

(** ** JSON values *)

(** A Python [float] that came out of a JSON text, kept as the decimal it
    was written as: [FDec neg m e] is [(-1)^neg * m * 10^e].  Binary
    rounding is not modelled, so equality here is finer than Python's
    [==] on floats. *)
Inductive pyfloat : Type :=
| FNaN
| FInf (neg : bool)
| FDec (neg : bool) (m : N) (e : Z).

(** What [json.loads] returns and [json.dumps] accepts.  A [dict] keeps
    its insertion order, so it is an association list; [JNull] is [None]. *)
#[local] Unset Elimination Schemes.
Inductive json : Type :=
| JNull
| JBool (v : bool)
| JInt (z : Z)
| JFloat (f : pyfloat)
| JStr (s : pystr)
| JArr (l : list json)
| JObj (d : list (pystr * json)).
#[local] Set Elimination Schemes.

Definition dict := list (pystr * json).

Definition pystr_eqb (s t : pystr) : bool :=
  if list_eq_dec N.eq_dec s t then true else false.

(** [d.get(k)] as an option. *)
Fixpoint dict_lookup (d : dict) (k : pystr) : option json :=
  match d with
  | [] => None
  | (k', v) :: d' => if pystr_eqb k' k then Some v else dict_lookup d' k
  end.

(** [d[k] = v]: an existing key keeps its place, a new one goes last. *)
Fixpoint dict_set (d : dict) (k : pystr) (v : json) : dict :=
  match d with
  | [] => [(k, v)]
  | (k', v') :: d' =>
    if pystr_eqb k' k then (k', v) :: d' else (k', v') :: dict_set d' k v
  end.

Definition dict_keys (d : dict) : list pystr := map fst d.

(** ** [json.loads] *)

Inductive token : Type :=
| TLBrace | TRBrace | TLBracket | TRBracket | TColon | TComma
| TStr (s : pystr)
| TInt (z : Z)
| TFloat (f : pyfloat)
| TBool (v : bool)
| TNull.

Module Lexer.

(** The states of the scanner.  String accumulators are reversed. *)
Inductive state : Type :=
| Idle
| Str (acc : pystr)
| Esc (acc : pystr)
| Uni (acc : pystr) (hi : option N) (k : nat) (u : N)
| Hi (acc : pystr) (hi : N)
| HiEsc (acc : pystr) (hi : N)
| Lit (rest : pystr) (t : token)
| Minus
| Zero (neg : bool)
| Int (neg : bool) (n : N)
| Dot (neg : bool) (m : N)
| Frac (neg : bool) (m : N) (k : Z)
| Exp (neg : bool) (m : N) (k : Z)
| ExpSign (neg : bool) (m : N) (k : Z) (eneg : bool)
| ExpDig (neg : bool) (m : N) (k : Z) (eneg : bool) (e : N).

(** [WHITESPACE = re.compile(r'[ \t\n\r]*')] *)
Definition is_ws (c : N) : bool :=
  (c =? 32) || (c =? 9) || (c =? 10) || (c =? 13).

Definition is_digit (c : N) : bool := in_range 48 57 c.

Definition hexval (c : N) : option N :=
  if in_range 48 57 c then Some (c - 48)
  else if in_range 97 102 c then Some (c - 87)
  else if in_range 65 70 c then Some (c - 55)
  else None.

(** [BACKSLASH] of [json.decoder]. *)
Definition escape_of (c : N) : option N :=
  if c =? 34 then Some 34        (* quote *)
  else if c =? 92 then Some 92   (* backslash *)
  else if c =? 47 then Some 47   (* slash *)
  else if c =? 98 then Some 8    (* b: backspace *)
  else if c =? 102 then Some 12  (* f: form feed *)
  else if c =? 110 then Some 10  (* n: line feed *)
  else if c =? 114 then Some 13  (* r: carriage return *)
  else if c =? 116 then Some 9   (* t: tab *)
  else None.

Definition is_high (u : N) : bool := in_range 0xD800 0xDBFF u.
Definition is_low (u : N) : bool := in_range 0xDC00 0xDFFF u.

Definition signed (neg : bool) (n : N) : Z :=
  if neg then (- Z.of_N n)%Z else Z.of_N n.

(** What is left of each literal once its first character is read. *)
Definition rue : pystr := Eval vm_compute in py "rue".
Definition alse : pystr := Eval vm_compute in py "alse".
Definition ull : pystr := Eval vm_compute in py "ull".
Definition aN : pystr := Eval vm_compute in py "aN".
Definition nfinity : pystr := Eval vm_compute in py "nfinity".

Definition idle (c : N) : option (list token * state) :=
  if is_ws c then Some ([], Idle)
  else if c =? 34 then Some ([], Str [])
  else if c =? 123 then Some ([TLBrace], Idle)
  else if c =? 125 then Some ([TRBrace], Idle)
  else if c =? 91 then Some ([TLBracket], Idle)
  else if c =? 93 then Some ([TRBracket], Idle)
  else if c =? 58 then Some ([TColon], Idle)
  else if c =? 44 then Some ([TComma], Idle)
  else if c =? 45 then Some ([], Minus)
  else if c =? 48 then Some ([], Zero false)
  else if is_digit c then Some ([], Int false (c - 48))
  else if c =? 116 then Some ([], Lit rue (TBool true))
  else if c =? 102 then Some ([], Lit alse (TBool false))
  else if c =? 110 then Some ([], Lit ull TNull)
  else if c =? 78 then Some ([], Lit aN (TFloat FNaN))
  else if c =? 73 then Some ([], Lit nfinity (TFloat (FInf false)))
  else None.

(** A number ends at the first character that cannot continue it; that
    character is then scanned afresh. *)
Definition after (t : token) (c : N) : option (list token * state) :=
  match idle c with
  | Some (ts, st) => Some (t :: ts, st)
  | None => None
  end.

(** Inside a string, strict mode: a raw control character is refused. *)
Definition in_str (acc : pystr) (c : N) : option (list token * state) :=
  if c =? 34 then Some ([TStr (rev acc)], Idle)
  else if c =? 92 then Some ([], Esc acc)
  else if c <? 32 then None
  else Some ([], Str (c :: acc)).

Definition in_esc (acc : pystr) (c : N) : option (list token * state) :=
  match escape_of c with
  | Some x => Some ([], Str (x :: acc))
  | None => if c =? 117 then Some ([], Uni acc None 4 0) else None
  end.

(** A [\uXXXX] escape that stands alone: a high surrogate waits for a
    low one, anything else is the character. *)
Definition uni_fresh (acc : pystr) (u : N) : state :=
  if is_high u then Hi acc u else Str (u :: acc).

(** The fourth hex digit has been read.  After a waiting high surrogate
    a low one completes the pair; anything else leaves the high one
    alone and counts as a fresh escape. *)
Definition uni_done (acc : pystr) (hi : option N) (u : N) : state :=
  match hi with
  | Some h =>
    if is_low u
    then Str ((0x10000 + N.lor (N.shiftl (h - 0xD800) 10) (u - 0xDC00)) :: acc)
    else uni_fresh (h :: acc) u
  | None => uni_fresh acc u
  end.

Definition step (st : state) (c : N) : option (list token * state) :=
  match st with
  | Idle => idle c
  | Str acc => in_str acc c
  | Esc acc => in_esc acc c
  | Uni acc hi k u =>
    match hexval c with
    | None => None
    | Some d =>
      match k with
      | O => None
      | S O => Some ([], uni_done acc hi (u * 16 + d))
      | S k' => Some ([], Uni acc hi k' (u * 16 + d))
      end
    end
  | Hi acc h =>
    if c =? 92 then Some ([], HiEsc acc h) else in_str (h :: acc) c
  | HiEsc acc h =>
    if c =? 117 then Some ([], Uni acc (Some h) 4 0) else in_esc (h :: acc) c
  | Lit rest t =>
    match rest with
    | [] => None
    | [x] => if c =? x then Some ([t], Idle) else None
    | x :: r => if c =? x then Some ([], Lit r t) else None
    end
  | Minus =>
    if c =? 48 then Some ([], Zero true)
    else if is_digit c then Some ([], Int true (c - 48))
    else if c =? 73 then Some ([], Lit nfinity (TFloat (FInf true)))
    else None
  | Zero neg =>
    if c =? 46 then Some ([], Dot neg 0)
    else if (c =? 101) || (c =? 69) then Some ([], Exp neg 0 0%Z)
    else after (TInt 0) c
  | Int neg n =>
    if is_digit c then Some ([], Int neg (n * 10 + (c - 48)))
    else if c =? 46 then Some ([], Dot neg n)
    else if (c =? 101) || (c =? 69) then Some ([], Exp neg n 0%Z)
    else after (TInt (signed neg n)) c
  | Dot neg m =>
    if is_digit c then Some ([], Frac neg (m * 10 + (c - 48)) 1%Z) else None
  | Frac neg m k =>
    if is_digit c then Some ([], Frac neg (m * 10 + (c - 48)) (k + 1)%Z)
    else if (c =? 101) || (c =? 69) then Some ([], Exp neg m k)
    else after (TFloat (FDec neg m (- k)%Z)) c
  | Exp neg m k =>
    if c =? 43 then Some ([], ExpSign neg m k false)
    else if c =? 45 then Some ([], ExpSign neg m k true)
    else if is_digit c then Some ([], ExpDig neg m k false (c - 48))
    else None
  | ExpSign neg m k eneg =>
    if is_digit c then Some ([], ExpDig neg m k eneg (c - 48)) else None
  | ExpDig neg m k eneg e =>
    if is_digit c then Some ([], ExpDig neg m k eneg (e * 10 + (c - 48)))
    else after (TFloat (FDec neg m (signed eneg e - k)%Z)) c
  end.

(** End of input: a number may end here, nothing else may be open. *)
Definition finish (st : state) : option (list token) :=
  match st with
  | Idle => Some []
  | Zero neg => Some [TInt 0]
  | Int neg n => Some [TInt (signed neg n)]
  | Frac neg m k => Some [TFloat (FDec neg m (- k)%Z)]
  | ExpDig neg m k eneg e => Some [TFloat (FDec neg m (signed eneg e - k)%Z)]
  | _ => None
  end.

Fixpoint run (st : state) (s : pystr) : option (list token) :=
  match s with
  | [] => finish st
  | c :: s' =>
    match step st c with
    | None => None
    | Some (ts, st') => oapp ts (run st' s')
    end
  end.

Definition lex (s : pystr) : option (list token) := run Idle s.

End Lexer.

Module Parser.

(** An open container: the elements read so far (latest first), or the
    members read so far and the key that waits for its value. *)
Inductive frame : Type :=
| FArr (acc : list json)
| FObj (acc : dict) (key : pystr).

Inductive state : Type :=
| Value (stk : list frame)
| ArrFirst (stk : list frame)
| ArrNext (acc : list json) (stk : list frame)
| ObjFirst (stk : list frame)
| ObjKey (acc : dict) (stk : list frame)
| ObjColon (acc : dict) (key : pystr) (stk : list frame)
| ObjNext (acc : dict) (stk : list frame)
| Done (v : json).

(** A value is complete: it goes into the innermost open container. *)
Definition complete (v : json) (stk : list frame) : state :=
  match stk with
  | [] => Done v
  | FArr acc :: stk' => ArrNext (v :: acc) stk'
  | FObj acc key :: stk' => ObjNext (dict_set acc key v) stk'
  end.

Definition value (stk : list frame) (t : token) : option state :=
  match t with
  | TNull => Some (complete JNull stk)
  | TBool v => Some (complete (JBool v) stk)
  | TInt z => Some (complete (JInt z) stk)
  | TFloat f => Some (complete (JFloat f) stk)
  | TStr s => Some (complete (JStr s) stk)
  | TLBracket => Some (ArrFirst stk)
  | TLBrace => Some (ObjFirst stk)
  | _ => None
  end.

Definition step (st : state) (t : token) : option state :=
  match st with
  | Value stk => value stk t
  | ArrFirst stk =>
    match t with
    | TRBracket => Some (complete (JArr []) stk)
    | _ => value (FArr [] :: stk) t
    end
  | ArrNext acc stk =>
    match t with
    | TComma => Some (Value (FArr acc :: stk))
    | TRBracket => Some (complete (JArr (rev acc)) stk)
    | _ => None
    end
  | ObjFirst stk =>
    match t with
    | TRBrace => Some (complete (JObj []) stk)
    | TStr k => Some (ObjColon [] k stk)
    | _ => None
    end
  | ObjKey acc stk =>
    match t with
    | TStr k => Some (ObjColon acc k stk)
    | _ => None
    end
  | ObjColon acc k stk =>
    match t with
    | TColon => Some (Value (FObj acc k :: stk))
    | _ => None
    end
  | ObjNext acc stk =>
    match t with
    | TComma => Some (ObjKey acc stk)
    | TRBrace => Some (complete (JObj acc) stk)
    | _ => None
    end
  | Done _ => None
  end.

Fixpoint run (st : state) (ts : list token) : option state :=
  match ts with
  | [] => Some st
  | t :: ts' => obind (step st t) (fun st' => run st' ts')
  end.

(** One document and nothing after it. *)
Definition parse (ts : list token) : option json :=
  match run (Value []) ts with
  | Some (Done v) => Some v
  | _ => None
  end.

End Parser.

(** [json.loads(s)]; [None] is [json.JSONDecodeError]. *)
Definition json_loads (s : pystr) : option json :=
  obind (Lexer.lex s) Parser.parse.

(** ** [json.dumps] *)

Module Encoder.

Definition lit_null : pystr := Eval vm_compute in py "null".
Definition lit_true : pystr := Eval vm_compute in py "true".
Definition lit_false : pystr := Eval vm_compute in py "false".
Definition lit_NaN : pystr := Eval vm_compute in py "NaN".
Definition lit_Infinity : pystr := Eval vm_compute in py "Infinity".

Definition hexdigit (d : N) : N := if d <? 10 then 48 + d else 87 + d.

(** ['%0wx' % n]: the low [w] hex digits of [n], lowercase. *)
Fixpoint hex (w : nat) (n : N) : pystr :=
  match w with
  | O => []
  | S w' => hex w' (n / 16) ++ [hexdigit (n mod 16)]
  end.

(** ['\\u{0:04x}'.format(n)] *)
Definition uXXXX (n : N) : pystr := 92 :: 117 :: hex 4 n.

(** [ESCAPE_ASCII] and [ESCAPE_DCT] of [json.encoder]: everything outside
    the printable ASCII range is escaped, a character above U+FFFF as a
    surrogate pair. *)
Definition escape (c : N) : pystr :=
  if c =? 34 then [92; 34]
  else if c =? 92 then [92; 92]
  else if c =? 10 then [92; 110]
  else if c =? 13 then [92; 114]
  else if c =? 9 then [92; 116]
  else if c =? 8 then [92; 98]
  else if c =? 12 then [92; 102]
  else if in_range 32 126 c then [c]
  else if c <? 0x10000 then uXXXX c
  else
    let n := c - 0x10000 in
    uXXXX (N.lor 0xD800 (N.land (N.shiftr n 10) 0x3FF))
    ++ uXXXX (N.lor 0xDC00 (N.land n 0x3FF)).

(** [py_encode_basestring_ascii] *)
Definition quote (s : pystr) : pystr := 34 :: flat_map escape s ++ [34].

Fixpoint digits (fuel : nat) (n : N) (acc : pystr) : pystr :=
  match fuel with
  | O => acc
  | S fuel' =>
    let acc' := (48 + n mod 10) :: acc in
    if n / 10 =? 0 then acc' else digits fuel' (n / 10) acc'
  end.

(** [str(n)] for a natural number; a number has no more decimal digits
    than bits. *)
Definition decimal (n : N) : pystr := digits (S (N.size_nat n)) n [].

(** [int.__repr__] *)
Definition int_repr (z : Z) : pystr :=
  if (z <? 0)%Z then 45 :: decimal (Z.abs_N z) else decimal (Z.abs_N z).

(** A float is written as the decimal it holds, mantissa and exponent.
    CPython writes [float.__repr__], the shortest decimal that reads
    back as the same float; either text reads back as the float. *)
Definition float_repr (f : pyfloat) : pystr :=
  match f with
  | FNaN => lit_NaN
  | FInf false => lit_Infinity
  | FInf true => 45 :: lit_Infinity
  | FDec neg m e =>
    (if neg then [45] else []) ++ decimal m ++ 101 :: int_repr e
  end.

(** [sep.join(l)] *)
Fixpoint join {A : Type} (sep : list A) (l : list (list A)) : list A :=
  match l with
  | [] => []
  | [x] => x
  | x :: l' => x ++ sep ++ join sep l'
  end.

Definition item_separator : pystr := Eval vm_compute in py ", ".
Definition key_separator : pystr := Eval vm_compute in py ": ".

(** The default encoder: [ensure_ascii], separators [", "] and [": "],
    no indentation, keys in insertion order. *)
Fixpoint dumps (v : json) : pystr :=
  match v with
  | JNull => lit_null
  | JBool true => lit_true
  | JBool false => lit_false
  | JInt z => int_repr z
  | JFloat f => float_repr f
  | JStr s => quote s
  | JArr l => 91 :: join item_separator (map dumps l) ++ [93]
  | JObj d =>
    123 :: join item_separator
             (map (fun kv => quote (fst kv) ++ key_separator ++ dumps (snd kv)) d)
        ++ [125]
  end.

End Encoder.

(** [json.dumps(v)] *)
Definition json_dumps (v : json) : pystr := Encoder.dumps v.

(** ** [uuid.uuid4] *)

(** [int.from_bytes(bs, 'big')] *)
Definition int_from_bytes (bs : bytes) : N :=
  fold_left (fun a x => a * 256 + Byte.to_N x) bs 0.

(** [UUID(bytes=os.urandom(16), version=4)]: the variant and version bits
    are forced, the other 122 bits are the random ones. *)
Definition uuid4 (urandom16 : bytes) : N :=
  let int := int_from_bytes urandom16 in
  let int := N.ldiff int (N.shiftl 0xC000 48) in
  let int := N.lor int (N.shiftl 0x8000 48) in
  let int := N.ldiff int (N.shiftl 0xF000 64) in
  N.lor int (N.shiftl 4 76).

Definition slice {A : Type} (i j : nat) (l : list A) : list A :=
  firstn (j - i) (skipn i l).

(** [str(UUID)]: 32 hex digits in groups of 8-4-4-4-12. *)
Definition uuid_str (u : N) : pystr :=
  let hex := Encoder.hex 32 u in
  firstn 8 hex ++ 45 :: slice 8 12 hex ++ 45 :: slice 12 16 hex
  ++ 45 :: slice 16 20 hex ++ 45 :: skipn 20 hex.

(** ** Effects: exceptions, standard output, the socket *)

Inductive exn : Type :=
| OSError (errno : N)
| UnicodeEncodeError
| UnicodeDecodeError
| JSONDecodeError
| AttributeError
| KeyError
| TypeError.

(** How a call ends.  [Blocked] is a call that never completes: a [recv]
    on a connection that neither delivers nor closes. *)
Inductive result (A : Type) : Type :=
| Returned (a : A)
| Raised (e : exn)
| Blocked.
Arguments Returned {A} a.
Arguments Raised {A} e.
Arguments Blocked {A}.

(** The operations on the socket, as they are issued. *)
Inductive syscall : Type :=
| Socket
| Connect (path : pystr)
| Sendall (data : bytes)
| Recv (bufsize : N)
| Close.

(** One piece of an f-string: literal text, or [str(v)] of a value. *)
Inductive piece : Type :=
| Text (s : pystr)
| Value (v : json).

(** The argument of one [print] call. *)
Definition line := list piece.

Record world : Type := {
  stdout : list line;
  trace : list syscall
}.

Definition M (A : Type) : Type := world -> result A * world.

Definition ret {A : Type} (a : A) : M A := fun w => (Returned a, w).

Definition raise {A : Type} (e : exn) : M A := fun w => (Raised e, w).

Definition bind {A B : Type} (m : M A) (f : A -> M B) : M B :=
  fun w =>
    match m w with
    | (Returned a, w') => f a w'
    | (Raised e, w') => (Raised e, w')
    | (Blocked, w') => (Blocked, w')
    end.

Notation "x <- m ;; k" := (bind m (fun x => k))
  (at level 61, m at next level, right associativity).
Notation "m ;; k" := (bind m (fun _ => k))
  (at level 61, right associativity).

Definition print (l : line) : M unit :=
  fun w => (Returned tt, {| stdout := stdout w ++ [l]; trace := trace w |}).

Definition sys (c : syscall) : M unit :=
  fun w => (Returned tt, {| stdout := stdout w; trace := trace w ++ [c] |}).

Definition block {A : Type} : M A := fun w => (Blocked, w).

(** [for x in l: body(x)] *)
Fixpoint for_each {A : Type} (l : list A) (body : A -> M unit) : M unit :=
  match l with
  | [] => ret tt
  | x :: l' => body x ;; for_each l' body
  end.

Definition when (c : bool) (m : M unit) : M unit := if c then m else ret tt.

(** What one [recv] call does. *)
Inductive recv_result : Type :=
| Chunk (data : bytes)
| RecvError (errno : N).

Inductive stream_end : Type :=
| PeerClosed
| PeerSilent.

(** The surroundings of one call of [call_daemon]: the home directory, the
    bytes [os.urandom(16)] gives to [uuid4], whether [connect] and
    [sendall] fail, what the successive [recv] calls return, and what a
    [recv] does once these are used up: the peer has closed, or it stays
    silent and [recv] blocks for ever.  An empty [Chunk] is what [recv]
    returns at end of stream. *)
Record environment : Type := {
  home : pystr;
  urandom16 : bytes;
  connect_error : option N;
  sendall_error : option N;
  incoming : list recv_result;
  at_end : stream_end
}.

(** ** The source file *)

(** [SOCKET_PATH = Path.home() / ".fgp/services/vercel/daemon.sock"] *)
Definition SOCKET_PATH (env : environment) : pystr :=
  home env ++ py "/.fgp/services/vercel/daemon.sock".

Definition newline : byte := "010"%byte.

(** [x in response] for a single byte [x]. *)
Definition contains (x : byte) (response : bytes) : bool :=
  existsb (Byte.eqb x) response.

Definition is_empty {A : Type} (l : list A) : bool :=
  match l with
  | [] => true
  | _ => false
  end.

(** The loop of [call_daemon]:
<<
    response = b""
    while True:
        chunk = sock.recv(4096)
        if not chunk:
            break
        response += chunk
        if b"\n" in response:
            break
>>
    by recursion on what the [recv] calls still have to return. *)
Fixpoint recv_loop (incoming : list recv_result) (at_end : stream_end)
         (response : bytes) : M bytes :=
  sys (Recv 4096) ;;
  match incoming with
  | [] =>
    match at_end with
    | PeerClosed => ret response
    | PeerSilent => block
    end
  | RecvError errno :: _ => raise (OSError errno)
  | Chunk chunk :: rest =>
    if is_empty chunk then ret response
    else
      let response := response ++ chunk in
      if contains newline response then ret response
      else recv_loop rest at_end response
  end.

(** [with socket.socket(...) as sock: body]: the socket is closed when the
    body returns and when it raises. *)
Definition with_socket {A : Type} (body : M A) : M A :=
  fun w =>
    match (sys Socket ;; body) w with
    | (Blocked, w') => (Blocked, w')
    | (r, w') => (r, snd (sys Close w'))
    end.

Definition connect (env : environment) (path : pystr) : M unit :=
  sys (Connect path) ;;
  match connect_error env with
  | Some errno => raise (OSError errno)
  | None => ret tt
  end.

Definition sendall (env : environment) (data : bytes) : M unit :=
  sys (Sendall data) ;;
  match sendall_error env with
  | Some errno => raise (OSError errno)
  | None => ret tt
  end.

(** [s.encode()] *)
Definition encode (s : pystr) : M bytes :=
  match Utf8.encode s with
  | Some bs => ret bs
  | None => raise UnicodeEncodeError
  end.

(** [bs.decode()] *)
Definition decode (bs : bytes) : M pystr :=
  match Utf8.decode bs with
  | Some s => ret s
  | None => raise UnicodeDecodeError
  end.

Definition loads (s : pystr) : M json :=
  match json_loads s with
  | Some v => ret v
  | None => raise JSONDecodeError
  end.

(** [params or {}] *)
Definition params_or_empty (params : option dict) : dict :=
  match params with
  | Some (kv :: d) => kv :: d
  | _ => []
  end.

(** The [request] dictionary of [call_daemon]. *)
Definition request (env : environment) (method : pystr) (params : option dict)
  : json :=
  JObj [(py "id", JStr (uuid_str (uuid4 (urandom16 env))));
        (py "v", JInt 1);
        (py "method", JStr method);
        (py "params", JObj (params_or_empty params))].

(** [json.loads(response.decode().strip())] *)
Definition decode_response (response : bytes) : M json :=
  text <- decode response ;;
  loads (py_strip text).

Definition call_daemon (env : environment) (method : pystr)
           (params : option dict) : M json :=
  let request := request env method params in
  with_socket (
    connect env (SOCKET_PATH env) ;;
    payload <- encode (json_dumps request ++ [10]) ;;
    sendall env payload ;;
    response <- recv_loop (incoming env) (at_end env) [] ;;
    decode_response response).

(** *** Python on the decoded values *)

(** [bool(f)] for a float: the decimal is zero, or it rounds to zero,
    which is at or below half the least subnormal, [2^-1075]. *)
Definition float_truthy (f : pyfloat) : bool :=
  match f with
  | FNaN => true
  | FInf _ => true
  | FDec _ m e =>
    if m =? 0 then false
    else if (0 <=? e)%Z then true
    else (10 ^ (- e) <? Z.of_N m * 2 ^ 1075)%Z
  end.

(** [bool(v)] *)
Definition truthy (v : json) : bool :=
  match v with
  | JNull => false
  | JBool x => x
  | JInt z => negb (z =? 0)%Z
  | JFloat f => float_truthy f
  | JStr s => negb (is_empty s)
  | JArr l => negb (is_empty l)
  | JObj d => negb (is_empty d)
  end.

(** [v.get(k, default)]: only a [dict] has the method. *)
Definition get_default (v : json) (k : pystr) (default : json) : M json :=
  match v with
  | JObj d =>
    match dict_lookup d k with
    | Some x => ret x
    | None => ret default
    end
  | _ => raise AttributeError
  end.

(** [v.get(k)] *)
Definition get (v : json) (k : pystr) : M json := get_default v k JNull.

(** [v[k]] for a string [k]. *)
Definition getitem (v : json) (k : pystr) : M json :=
  match v with
  | JObj d =>
    match dict_lookup d k with
    | Some x => ret x
    | None => raise KeyError
    end
  | _ => raise TypeError
  end.

(** [iter(v)]: a list gives its elements, a dict its keys, a string its
    characters. *)
Definition iter (v : json) : M (list json) :=
  match v with
  | JArr l => ret l
  | JObj d => ret (map (fun kv => JStr (fst kv)) d)
  | JStr s => ret (map (fun c => JStr [c]) s)
  | _ => raise TypeError
  end.

(** [v[:n]]; on a dict the fault is [TypeError] up to Python 3.11 and
    [KeyError] from 3.12 on, the former is taken here. *)
Definition slice_to (n : nat) (v : json) : M json :=
  match v with
  | JStr s => ret (JStr (firstn n s))
  | JArr l => ret (JArr (firstn n l))
  | _ => raise TypeError
  end.

(** [table.get(k, default)] on a dict literal with string keys and string
    values: a list or a dict as [k] cannot be hashed, any other value
    that is no string is no key. *)
Definition table_get (table : list (pystr * pystr)) (k : json)
           (default : pystr) : M pystr :=
  match k with
  | JArr _ | JObj _ => raise TypeError
  | JStr s =>
    match find (fun kv => pystr_eqb (fst kv) s) table with
    | Some kv => ret (snd kv)
    | None => ret default
    end
  | _ => ret default
  end.

(** ["-" * 40] *)
Definition rule : line := [Text (repeat 45 40%nat)].

(** [print(f"  ❌ Error: {result.get('error')}")] *)
Definition print_error (result : json) : M unit :=
  error <- get result (py "error") ;;
  print [Text (py "  ❌ Error: "); Value error].

Definition list_projects (env : environment) : M unit :=
  print [Text (10 :: py "🚀 Vercel Projects")] ;;
  print rule ;;
  result <- call_daemon env (py "vercel.projects") (Some []) ;;
  ok <- get result (py "ok") ;;
  if truthy ok then
    inner <- getitem result (py "result") ;;
    projects <- get_default inner (py "projects") (JArr []) ;;
    when (negb (truthy projects)) (print [Text (py "  No projects found")]) ;;
    items <- iter projects ;;
    for_each items (fun project =>
      framework <- get_default project (py "framework") (JStr (py "unknown")) ;;
      name <- get project (py "name") ;;
      print [Text (py "  • "); Value name] ;;
      print [Text (py "    Framework: "); Value framework] ;;
      updated <- get_default project (py "updatedAt") (JStr (py "unknown")) ;;
      print [Text (py "    Updated: "); Value updated] ;;
      print [])
  else
    print_error result.

(** The dict literal of [list_deployments]. *)
Definition state_icons : list (pystr * pystr) :=
  [(py "READY", py "🟢");
   (py "ERROR", py "🔴");
   (py "BUILDING", py "🟡");
   (py "QUEUED", py "⚪")].

(** [state_icon = {...}.get(state, "⚪")] *)
Definition state_icon (state : json) : M pystr :=
  table_get state_icons state (py "⚪").

(** One turn of the loop of [list_deployments]. *)
Definition show_deployment (deploy : json) : M unit :=
  state <- get_default deploy (py "state") (JStr (py "unknown")) ;;
  state_icon <- state_icon state ;;
  url <- get_default deploy (py "url") (JStr (py "no-url")) ;;
  print [Text (py "  "); Text state_icon; Text (py " "); Value url] ;;
  print [Text (py "     State: "); Value state] ;;
  created <- get_default deploy (py "created") (JStr (py "unknown")) ;;
  print [Text (py "     Created: "); Value created] ;;
  meta <- get_default deploy (py "meta") (JObj []) ;;
  message <- get meta (py "githubCommitMessage") ;;
  when (truthy message) (
    meta <- getitem deploy (py "meta") ;;
    message <- getitem meta (py "githubCommitMessage") ;;
    head <- slice_to 50 message ;;
    print [Text (py "     Commit: "); Value head; Text (py "...")]) ;;
  print [].

Definition list_deployments (env : environment) (project_name : option pystr)
           (limit : Z) : M unit :=
  let named :=
    match project_name with
    | Some name => negb (is_empty name)
    | None => false
    end in
  let target :=
    match project_name with
    | Some name => if named then [Text (py "for "); Text name] else [Text []]
    | None => [Text []]
    end in
  print (Text (10 :: py "📦 Recent Deployments ") :: target) ;;
  print rule ;;
  let params := [(py "limit", JInt limit)] in
  let params :=
    match project_name with
    | Some name => if named then dict_set params (py "project") (JStr name) else params
    | None => params
    end in
  result <- call_daemon env (py "vercel.deployments") (Some params) ;;
  ok <- get result (py "ok") ;;
  if truthy ok then
    inner <- getitem result (py "result") ;;
    deployments <- get_default inner (py "deployments") (JArr []) ;;
    when (negb (truthy deployments)) (print [Text (py "  No deployments found")]) ;;
    items <- iter deployments ;;
    for_each items show_deployment
  else
    print_error result.

(** [v == s] for a string [s]: only a string is equal to a string. *)
Definition eq_str (v : json) (s : pystr) : bool :=
  match v with
  | JStr t => pystr_eqb t s
  | _ => false
  end.

(** The dict literal of [get_deployment_logs]. *)
Definition level_icons : list (pystr * pystr) :=
  [(py "error", py "❌");
   (py "warn", py "⚠️");
   (py "info", py "ℹ️")].

(** One turn of the loop of [get_deployment_logs]. *)
Definition show_log (log : json) : M unit :=
  level <- get_default log (py "level") (JStr (py "info")) ;;
  level_icon <- table_get level_icons level (py "•") ;;
  message <- get_default log (py "message") (JStr []) ;;
  print [Text (py "  "); Text level_icon; Text (py " "); Value message].

Definition get_deployment_logs (env : environment) (deployment_id : pystr)
           (limit : Z) : M unit :=
  print [Text (10 :: py "📝 Logs for deployment: "); Text deployment_id] ;;
  print rule ;;
  result <- call_daemon env (py "vercel.logs")
              (Some [(py "deployment_id", JStr deployment_id);
                     (py "limit", JInt limit)]) ;;
  ok <- get result (py "ok") ;;
  if truthy ok then
    inner <- getitem result (py "result") ;;
    logs <- get_default inner (py "logs") (JArr []) ;;
    when (negb (truthy logs)) (print [Text (py "  No logs found")]) ;;
    items <- iter logs ;;
    for_each items show_log
  else
    print_error result.

(** The conditional expression of [get_deployment_status]:
    the READY marker, the ERROR marker, or the third one. *)
Definition status_icon (state : json) : pystr :=
  if eq_str state (py "READY") then py "🟢"
  else if eq_str state (py "ERROR") then py "🔴"
  else py "🟡".

(** The [if status.get("build"):] block of [get_deployment_status]. *)
Definition show_build (status : json) : M unit :=
  build <- getitem status (py "build") ;;
  print [Text (10 :: py "  Build:")] ;;
  duration <- get_default build (py "duration") (JStr (py "unknown")) ;;
  print [Text (py "    Duration: "); Value duration; Text (py "ms")] ;;
  outcome <- get build (py "status") ;;
  print [Text (py "    Status: "); Value outcome].

Definition get_deployment_status (env : environment) (deployment_id : pystr)
  : M unit :=
  print [Text (10 :: py "📊 Deployment Status: "); Text deployment_id] ;;
  print rule ;;
  result <- call_daemon env (py "vercel.status")
              (Some [(py "deployment_id", JStr deployment_id)]) ;;
  ok <- get result (py "ok") ;;
  if truthy ok then
    status <- getitem result (py "result") ;;
    state <- get_default status (py "state") (JStr (py "unknown")) ;;
    print [Text (py "  "); Text (status_icon state); Text (py " State: ");
           Value state] ;;
    url <- get status (py "url") ;;
    print [Text (py "  URL: "); Value url] ;;
    created <- get status (py "created") ;;
    print [Text (py "  Created: "); Value created] ;;
    build <- get status (py "build") ;;
    when (truthy build) (show_build status)
  else
    print_error result.

(** One turn of the loop of [list_domains]. *)
Definition show_domain (domain : json) : M unit :=
  flag <- get domain (py "verified") ;;
  let verified := if truthy flag then py "✓" else py "✗" in
  name <- get domain (py "name") ;;
  print [Text (py "  ["); Text verified; Text (py "] "); Value name].

Definition list_domains (env : environment) (project_name : pystr) : M unit :=
  print [Text (10 :: py "🌐 Domains for: "); Text project_name] ;;
  print rule ;;
  result <- call_daemon env (py "vercel.domains")
              (Some [(py "project", JStr project_name)]) ;;
  ok <- get result (py "ok") ;;
  if truthy ok then
    inner <- getitem result (py "result") ;;
    domains <- get_default inner (py "domains") (JArr []) ;;
    when (negb (truthy domains)) (print [Text (py "  No domains configured")]) ;;
    items <- iter domains ;;
    for_each items show_domain
  else
    print_error result.

(** How the script ends when no exception escapes: it runs to its last
    line, or [exit(1)] raises [SystemExit], which nothing catches. *)
Inductive ending : Type :=
| Completed
| SystemExit (code : Z).

(** The script under [if __name__ == "__main__":].  Each of its three
    calls of the daemon has an environment of its own. *)
Definition main (health_env projects_env deployments_env : environment)
  : M ending :=
  print [Text (py "Vercel Daemon Examples")] ;;
  print [Text (repeat 61 40%nat)] ;;
  health <- call_daemon health_env (py "health") None ;;
  ok <- get health (py "ok") ;;
  if negb (truthy ok) then
    print [Text (py "❌ Vercel daemon not running. Start with: fgp start vercel")] ;;
    print [Text (py "   Also ensure VERCEL_TOKEN is set")] ;;
    ret (SystemExit 1)
  else
    print [Text (py "✅ Vercel daemon is healthy")] ;;
    list_projects projects_env ;;
    list_deployments deployments_env None 5 ;;
    ret Completed.

(** [str(v)] where it is the text of the value itself; the [repr] of a
    float or of a container is not modelled. *)
Definition py_str (v : json) : option pystr :=
  match v with
  | JStr s => Some s
  | JNull => Some (py "None")
  | JBool true => Some (py "True")
  | JBool false => Some (py "False")
  | JInt z => Some (Encoder.int_repr z)
  | _ => None
  end.

Definition piece_text (p : piece) : option pystr :=
  match p with
  | Text s => Some s
  | Value v => py_str v
  end.

(** The text one [print] call writes, without the final line feed. *)
Definition line_text (l : line) : option pystr :=
  option_map (@List.concat N) (traverse piece_text l).

Definition init : world := {| stdout := []; trace := [] |}.

(** * Verification *)

(** ** The monad and the trace *)

(** The world after some more socket operations. *)
Definition emit (cs : list syscall) (w : world) : world :=
  {| stdout := stdout w; trace := trace w ++ cs |}.

Lemma emit_nil w : emit [] w = w.
Proof. destruct w; unfold emit; simpl; now rewrite app_nil_r. Qed.

Lemma emit_emit a c w : emit c (emit a w) = emit (a ++ c) w.
Proof. unfold emit; simpl; now rewrite app_assoc. Qed.

Lemma sys_emit c w : sys c w = (Returned tt, emit [c] w).
Proof. reflexivity. Qed.

Lemma bind_returned {A B} (m : M A) (f : A -> M B) w a w' :
  m w = (Returned a, w') -> (x <- m ;; f x) w = f a w'.
Proof. unfold bind; now intros ->. Qed.

Lemma bind_raised {A B} (m : M A) (f : A -> M B) w e w' :
  m w = (Raised e, w') -> (x <- m ;; f x) w = (Raised e, w').
Proof. unfold bind; now intros ->. Qed.

Lemma bind_blocked {A B} (m : M A) (f : A -> M B) w w' :
  m w = (Blocked, w') -> (x <- m ;; f x) w = (Blocked, w').
Proof. unfold bind; now intros ->. Qed.

(** ** The read loop *)

Lemma contains_app x l1 l2 :
  contains x (l1 ++ l2) = contains x l1 || contains x l2.
Proof. apply existsb_app. Qed.

(** A chunk as a partial write delivers it: some bytes, no newline. *)
Definition partial (chunk : bytes) : Prop :=
  chunk <> [] /\ contains newline chunk = false.

Lemma recv_loop_partial chunk rest e response w :
  partial chunk -> contains newline response = false ->
  recv_loop (Chunk chunk :: rest) e response w
  = recv_loop rest e (response ++ chunk) (emit [Recv 4096] w).
Proof.
  intros [Hne Hnl] Hr. simpl. unfold bind at 1. rewrite sys_emit.
  destruct chunk as [|x chunk]; [congruence|]. cbn [is_empty].
  now rewrite contains_app, Hr, Hnl.
Qed.

(** Partial writes are accumulated, one [recv] each. *)
Lemma recv_loop_partials pre : forall rest e response w,
  Forall partial pre -> contains newline response = false ->
  recv_loop (map Chunk pre ++ rest) e response w
  = recv_loop rest e (response ++ List.concat pre)
              (emit (repeat (Recv 4096) (length pre)) w).
Proof.
  induction pre as [|c pre IH]; intros rest e response w Hpre Hr.
  - simpl. now rewrite app_nil_r, emit_nil.
  - inversion Hpre as [|? ? Hc Hpre']; subst. simpl map. simpl app.
    rewrite recv_loop_partial by assumption.
    rewrite IH; [|assumption|].
    + rewrite emit_emit. simpl. now rewrite <- app_assoc.
    + destruct Hc as [_ Hc]. now rewrite contains_app, Hr, Hc.
Qed.

(** The chunk that carries the newline ends the loop. *)
Lemma recv_loop_last last rest e response w :
  contains newline last = true ->
  recv_loop (Chunk last :: rest) e response w
  = (Returned (response ++ last), emit [Recv 4096] w).
Proof.
  intros Hl. simpl. unfold bind at 1. rewrite sys_emit.
  destruct last as [|x last]; [discriminate|]. cbn [is_empty].
  now rewrite contains_app, Hl, orb_true_r.
Qed.

(** End of stream ends the loop when the peer has closed. *)
Lemma recv_loop_closed response w :
  recv_loop [] PeerClosed response w = (Returned response, emit [Recv 4096] w).
Proof. reflexivity. Qed.

Lemma recv_loop_silent response w :
  recv_loop [] PeerSilent response w = (Blocked, emit [Recv 4096] w).
Proof. reflexivity. Qed.

(** The loop leaves standard output alone and issues [recv] calls only. *)
Lemma recv_loop_trace incoming : forall e response w,
  exists n, snd (recv_loop incoming e response w)
            = emit (repeat (Recv 4096) (S n)) w.
Proof.
  induction incoming as [|r incoming IH]; intros e response w.
  - exists 0%nat. now destruct e.
  - destruct r as [chunk|errno]; [|now exists 0%nat].
    simpl. unfold bind at 1. rewrite sys_emit.
    destruct (is_empty chunk); [now exists 0%nat|].
    destruct (contains newline (response ++ chunk)); [now exists 0%nat|].
    destruct (IH e (response ++ chunk) (emit [Recv 4096] w)) as [n Hn].
    exists (S n). rewrite Hn. now rewrite emit_emit.
Qed.

(** ** Induction on JSON values *)

Section JsonInd.

Variable P : json -> Prop.
Hypothesis Hnull : P JNull.
Hypothesis Hbool : forall v, P (JBool v).
Hypothesis Hint : forall z, P (JInt z).
Hypothesis Hfloat : forall f, P (JFloat f).
Hypothesis Hstr : forall s, P (JStr s).
Hypothesis Harr : forall l, Forall P l -> P (JArr l).
Hypothesis Hobj : forall d, Forall (fun kv => P (snd kv)) d -> P (JObj d).

Fixpoint json_ind (v : json) : P v :=
  match v with
  | JNull => Hnull
  | JBool x => Hbool x
  | JInt z => Hint z
  | JFloat f => Hfloat f
  | JStr s => Hstr s
  | JArr l =>
    Harr l ((fix all (l : list json) : Forall P l :=
               match l with
               | [] => Forall_nil _
               | x :: l' => Forall_cons _ (json_ind x) (all l')
               end) l)
  | JObj d =>
    Hobj d ((fix all (d : dict) : Forall (fun kv => P (snd kv)) d :=
               match d with
               | [] => Forall_nil _
               | kv :: d' => Forall_cons _ (json_ind (snd kv)) (all d')
               end) d)
  end.

End JsonInd.

(** ** The encoder writes printable ASCII *)

Definition printable (s : pystr) : Prop := Forall (fun c => 32 <= c <= 126) s.

Lemma printable_app s t : printable s -> printable t -> printable (s ++ t).
Proof. intros; apply Forall_app; now split. Qed.

Lemma printable_cons c s : 32 <= c <= 126 -> printable s -> printable (c :: s).
Proof. now constructor. Qed.

Create HintDb printable.
#[local] Hint Resolve printable_app printable_cons : printable.
#[local] Hint Extern 1 (_ <= _ <= _) => lia : printable.
#[local] Hint Extern 1 (printable []) => constructor : printable.

Lemma hexdigit_printable d : d < 16 -> 32 <= Encoder.hexdigit d <= 126.
Proof. unfold Encoder.hexdigit; destruct (N.ltb_spec d 10); lia. Qed.

Lemma mod16_lt n : n mod 16 < 16.
Proof. apply N.mod_lt; lia. Qed.

Lemma mod10_lt n : n mod 10 < 10.
Proof. apply N.mod_lt; lia. Qed.

Lemma hex_printable w : forall n, printable (Encoder.hex w n).
Proof.
  induction w as [|w IH]; intros n; simpl; [constructor|].
  apply printable_app; [apply IH|].
  constructor; [apply hexdigit_printable, mod16_lt|constructor].
Qed.

Lemma uXXXX_printable n : printable (Encoder.uXXXX n).
Proof. unfold Encoder.uXXXX. auto using hex_printable with printable. Qed.

Ltac printable_literal := repeat (constructor; [lia|]); constructor.

Lemma escape_printable c : printable (Encoder.escape c).
Proof.
  unfold Encoder.escape.
  repeat (match goal with |- printable (if ?x =? ?y then _ else _) =>
            destruct (x =? y); [printable_literal|] end).
  destruct (in_range 32 126 c) eqn:Hr.
  - unfold in_range in Hr. apply andb_prop in Hr as [Hl Hr].
    apply N.leb_le in Hl. apply N.leb_le in Hr. repeat constructor; lia.
  - destruct (c <? 65536); auto using uXXXX_printable with printable.
Qed.

Lemma quote_printable s : printable (Encoder.quote s).
Proof.
  unfold Encoder.quote. apply printable_cons; [lia|]. apply printable_app.
  - induction s as [|c s IH]; simpl; [constructor|].
    apply printable_app; [apply escape_printable|exact IH].
  - printable_literal.
Qed.

Lemma digits_printable fuel : forall n acc,
  printable acc -> printable (Encoder.digits fuel n acc).
Proof.
  induction fuel as [|fuel IH]; intros n acc Hacc; simpl; [exact Hacc|].
  assert (printable ((48 + n mod 10) :: acc)).
  { apply printable_cons; [|exact Hacc]. pose proof (mod10_lt n).
    set (r := n mod 10) in *. clearbody r. lia. }
  destruct (n / 10 =? 0); auto.
Qed.

Lemma decimal_printable n : printable (Encoder.decimal n).
Proof. apply digits_printable. constructor. Qed.

Lemma int_repr_printable z : printable (Encoder.int_repr z).
Proof.
  unfold Encoder.int_repr. destruct (z <? 0)%Z; auto using decimal_printable with printable.
Qed.

Lemma float_repr_printable f : printable (Encoder.float_repr f).
Proof.
  destruct f as [|[|]|neg m e]; simpl; try printable_literal.
  apply printable_app; [destruct neg; printable_literal|].
  apply printable_app; [apply decimal_printable|].
  apply printable_cons; [lia|apply int_repr_printable].
Qed.

Lemma join_printable sep l :
  printable sep -> Forall printable l -> printable (Encoder.join sep l).
Proof.
  intros Hsep Hl. induction Hl as [|x l Hx Hl IH]; simpl; [constructor|].
  destruct l as [|y l]; [exact Hx|]. auto with printable.
Qed.

Lemma dumps_printable v : printable (json_dumps v).
Proof.
  unfold json_dumps. induction v using json_ind; cbn [Encoder.dumps].
  - printable_literal.
  - destruct v; printable_literal.
  - apply int_repr_printable.
  - apply float_repr_printable.
  - apply quote_printable.
  - apply printable_cons; [lia|]. apply printable_app; [|printable_literal].
    apply join_printable; [printable_literal|]. now apply Forall_map.
  - apply printable_cons; [lia|]. apply printable_app; [|printable_literal].
    apply join_printable; [printable_literal|]. apply Forall_map.
    eapply Forall_impl; [|eassumption]. intros [k x] Hx; cbn [fst snd] in *.
    apply printable_app; [apply quote_printable|].
    apply printable_app; [printable_literal|exact Hx].
Qed.

(** So the text is ASCII and has no line feed in it. *)
Definition ascii (s : pystr) : Prop := Forall (fun c => c < 128) s.

Lemma ascii_app s t : ascii s -> ascii t -> ascii (s ++ t).
Proof. intros; apply Forall_app; now split. Qed.

Ltac ascii_literal := repeat (constructor; [reflexivity|]); constructor.

Lemma printable_ascii s : printable s -> ascii s.
Proof. apply Forall_impl. intros c Hc. lia. Qed.

Lemma hex_ascii w n : ascii (Encoder.hex w n).
Proof. apply printable_ascii, hex_printable. Qed.

Lemma dumps_ascii v : ascii (json_dumps v).
Proof. apply printable_ascii, dumps_printable. Qed.

Lemma dumps_one_line v : Forall (fun c => c <> 10) (json_dumps v).
Proof. eapply Forall_impl; [|apply dumps_printable]. intros c Hc. cbv beta in Hc. lia. Qed.

(** ** UTF-8 on ASCII text *)

Lemma traverse_encode_cp_ascii s :
  ascii s -> traverse Utf8.encode_cp s = Some (map (fun c => [c]) s).
Proof.
  induction 1 as [|c s Hc Hs IH]; [reflexivity|]. cbn [traverse map].
  unfold Utf8.encode_cp at 1. destruct (N.ltb_spec c 128); [|lia].
  cbn [obind]. now rewrite IH.
Qed.

Lemma concat_singletons {A} (l : list A) :
  List.concat (map (fun c => [c]) l) = l.
Proof. induction l; simpl; congruence. Qed.

Lemma traverse_of_N s :
  Forall (fun c => c <= 255) s ->
  exists bs, traverse Byte.of_N s = Some bs /\ map Byte.to_N bs = s.
Proof.
  induction 1 as [|c s Hc Hs (bs & Hbs & Hmap)]; [now exists []|].
  destruct (Byte.of_N c) as [x|] eqn:Hx.
  - exists (x :: bs). cbn [traverse map]. rewrite Hx. cbn [obind]. rewrite Hbs.
    split; [reflexivity|]. apply Byte.to_of_N in Hx. congruence.
  - apply Byte.of_N_None_iff in Hx. lia.
Qed.

(** ASCII text always encodes, one byte for each character. *)
Lemma encode_ascii s :
  ascii s -> exists bs, Utf8.encode s = Some bs /\ map Byte.to_N bs = s.
Proof.
  intros Hs. unfold Utf8.encode. rewrite traverse_encode_cp_ascii by assumption.
  cbn [obind]. rewrite concat_singletons. apply traverse_of_N.
  eapply Forall_impl; [|exact Hs]. simpl; intros; lia.
Qed.

Lemma decode_N_ascii s : ascii s -> Utf8.decode_N s = Some s.
Proof.
  induction 1 as [|c s Hc Hs IH]; [reflexivity|]. cbn [Utf8.decode_N].
  destruct (N.ltb_spec c 128); [|lia]. now rewrite IH.
Qed.

(** ** One call of [call_daemon] *)

(** Decoding reads and writes nothing: its outcome is a function of the
    bytes. *)
Definition response_value (response : bytes) : result json :=
  fst (decode_response response init).

Lemma decode_response_pure response w :
  decode_response response w = (response_value response, w).
Proof.
  unfold response_value, decode_response, decode, loads, bind, ret, raise.
  destruct (Utf8.decode response); [destruct (json_loads _)|]; reflexivity.
Qed.

(** Decoding returns a value or raises one of the two decode faults. *)
Lemma response_value_cases response :
  (exists v, response_value response = Returned v)
  \/ response_value response = Raised UnicodeDecodeError
  \/ response_value response = Raised JSONDecodeError.
Proof.
  unfold response_value, decode_response, decode, loads, bind, ret, raise.
  destruct (Utf8.decode response); [destruct (json_loads _)|]; cbn [fst]; eauto.
Qed.

Lemma response_value_not_blocked response : response_value response <> Blocked.
Proof.
  destruct (response_value_cases response) as [[v H]|[H|H]]; rewrite H; discriminate.
Qed.

(** The bytes handed to [sendall]. *)
Definition payload (env : environment) (method : pystr) (params : option dict)
  : bytes :=
  match Utf8.encode (json_dumps (request env method params) ++ [10]) with
  | Some bs => bs
  | None => []
  end.

Lemma payload_encodes env method params :
  Utf8.encode (json_dumps (request env method params) ++ [10])
  = Some (payload env method params)
  /\ map Byte.to_N (payload env method params)
     = json_dumps (request env method params) ++ [10].
Proof.
  unfold payload.
  destruct (encode_ascii (json_dumps (request env method params) ++ [10]))
    as (bs & -> & Hbs); [|now split].
  apply ascii_app; [apply dumps_ascii|ascii_literal].
Qed.

(** How an outcome of the read loop ends the call. *)
Definition finish_call (rw : result bytes * world) : result json * world :=
  match rw with
  | (Returned response, w) => (response_value response, emit [Close] w)
  | (Raised e, w) => (Raised e, emit [Close] w)
  | (Blocked, w) => (Blocked, w)
  end.

(** A call that gets through [connect] and [sendall]. *)
Lemma call_daemon_exchange env method params w :
  connect_error env = None -> sendall_error env = None ->
  call_daemon env method params w
  = finish_call
      (recv_loop (incoming env) (at_end env) []
         (emit [Socket; Connect (SOCKET_PATH env);
                Sendall (payload env method params)] w)).
Proof.
  intros Hc Hs. destruct (payload_encodes env method params) as [Hp _].
  unfold call_daemon, with_socket, connect, sendall, encode.
  rewrite Hc, Hs, Hp. unfold bind, sys, ret. cbn [stdout trace].
  unfold emit. rewrite <- !app_assoc. cbn [app].
  destruct (recv_loop _ _ _ _) as [[response|e|] w1]; cbn [finish_call snd];
    [|reflexivity..].
  rewrite decode_response_pure.
  pose proof (response_value_not_blocked response).
  destruct (response_value response); [reflexivity..|congruence].
Qed.

Lemma call_daemon_connect_fails env method params w errno :
  connect_error env = Some errno ->
  call_daemon env method params w
  = (Raised (OSError errno),
     emit [Socket; Connect (SOCKET_PATH env); Close] w).
Proof.
  intros Hc. unfold call_daemon, with_socket, connect. rewrite Hc.
  unfold bind, raise, sys, emit. cbn [snd stdout trace].
  now rewrite <- !app_assoc.
Qed.

Lemma call_daemon_sendall_fails env method params w errno :
  connect_error env = None -> sendall_error env = Some errno ->
  call_daemon env method params w
  = (Raised (OSError errno),
     emit [Socket; Connect (SOCKET_PATH env);
           Sendall (payload env method params); Close] w).
Proof.
  intros Hc Hs. destruct (payload_encodes env method params) as [Hp _].
  unfold call_daemon, with_socket, connect, sendall, encode.
  rewrite Hc, Hs, Hp. unfold bind, raise, ret, sys, emit. cbn [snd stdout trace].
  now rewrite <- !app_assoc.
Qed.

(** A call writes nothing to standard output. *)
Lemma call_daemon_stdout env method params w :
  stdout (snd (call_daemon env method params w)) = stdout w.
Proof.
  destruct (connect_error env) as [errno|] eqn:Hc.
  { now rewrite (call_daemon_connect_fails _ _ _ _ _ Hc). }
  destruct (sendall_error env) as [errno|] eqn:Hs.
  { now rewrite (call_daemon_sendall_fails _ _ _ _ _ Hc Hs). }
  rewrite call_daemon_exchange by assumption.
  match goal with |- context [recv_loop ?i ?e ?r ?w0] =>
    destruct (recv_loop_trace i e r w0) as [n Hn];
    destruct (recv_loop i e r w0) as [[response|e'|] w1] end;
    cbn [snd finish_call] in *; subst w1; reflexivity.
Qed.

(** The trace of a call that got through [connect] and [sendall], made
    [n] calls of [recv] and came to its end. *)
Definition exchange (env : environment) (method : pystr)
           (params : option dict) (n : nat) : list syscall :=
  [Socket; Connect (SOCKET_PATH env); Sendall (payload env method params)]
  ++ repeat (Recv 4096) n ++ [Close].

(** The line a daemon writes for [v]: its JSON text and a newline. *)
Definition wire (v : json) : bytes :=
  match Utf8.encode (json_dumps v ++ [10]) with
  | Some bs => bs
  | None => []
  end.

(** An environment in which [connect] and [sendall] succeed. *)
Definition reachable (incoming : list recv_result) (at_end : stream_end)
  : environment :=
  {| home := py "/home/dev";
     urandom16 := repeat "*"%byte 16;
     connect_error := None;
     sendall_error := None;
     incoming := incoming;
     at_end := at_end |}.

Lemma call_daemon_received env method params w response n :
  connect_error env = None -> sendall_error env = None ->
  (forall w0, recv_loop (incoming env) (at_end env) [] w0
              = (Returned response, emit (repeat (Recv 4096) n) w0)) ->
  call_daemon env method params w
  = (response_value response, emit (exchange env method params n) w).
Proof.
  intros Hc Hs Hloop. rewrite call_daemon_exchange by assumption.
  rewrite Hloop. cbn [finish_call]. now rewrite !emit_emit.
Qed.

(** The loop runs through the partial writes and stops at the chunk that
    carries a newline. *)
Lemma recv_loop_until_newline (chunks : list bytes) last rest e w :
  Forall partial chunks -> contains newline last = true ->
  recv_loop (map Chunk chunks ++ Chunk last :: rest) e [] w
  = (Returned (List.concat chunks ++ last),
     emit (repeat (Recv 4096) (S (length chunks))) w).
Proof.
  intros Hpre Hlast. rewrite recv_loop_partials by (assumption || reflexivity).
  rewrite recv_loop_last by assumption. rewrite emit_emit.
  cbn [app]. f_equal. f_equal.
  change (S (length chunks)) with (1 + length chunks)%nat.
  now rewrite Nat.add_comm, repeat_app.
Qed.

(** What is decoded is all that was received, up to the end of the chunk
    in which the first newline came. *)
Lemma call_daemon_until_newline
      env method params (chunks : list bytes) last rest w :
  connect_error env = None -> sendall_error env = None ->
  incoming env = map Chunk chunks ++ Chunk last :: rest ->
  Forall partial chunks -> contains newline last = true ->
  call_daemon env method params w
  = (response_value (List.concat chunks ++ last),
     emit (exchange env method params (S (length chunks))) w).
Proof.
  intros Hc Hs Hin Hpre Hlast. apply call_daemon_received; try assumption.
  intros w0. rewrite Hin. now apply recv_loop_until_newline.
Qed.

(** C3.  However a newline-terminated response is split into partial
    writes, with the newline in the last of them, the loop makes one
    [recv] call for each, stops at the last, and what is decoded is the
    concatenation of all the chunks: the whole message, never a prefix. *)
Theorem call_daemon_assembles_partial_writes
        env method params (chunks : list bytes) (last : bytes) rest w :
  connect_error env = None -> sendall_error env = None ->
  incoming env = map Chunk chunks ++ Chunk last :: rest ->
  Forall partial chunks -> contains newline last = true ->
  recv_loop (incoming env) (at_end env) [] w
  = (Returned (List.concat chunks ++ last),
     emit (repeat (Recv 4096) (S (length chunks))) w)
  /\ call_daemon env method params w
     = (response_value (List.concat chunks ++ last),
        emit (exchange env method params (S (length chunks))) w).
Proof.
  intros Hc Hs Hin Hpre Hlast. split.
  - rewrite Hin. now apply recv_loop_until_newline.
  - eapply call_daemon_until_newline; eassumption.
Qed.

Ltac partials :=
  repeat (constructor; [split; [discriminate|reflexivity]|]); constructor.

Lemma call_daemon_assembles_partial_writes_witness :
  let response := JObj [(py "ok", JBool true)] in
  let chunks := [firstn 4 (wire response); slice 4 8 (wire response)] in
  let last := skipn 8 (wire response) in
  let env := reachable (map Chunk chunks ++ [Chunk last]) PeerSilent in
  List.concat chunks ++ last = wire response
  /\ fst (call_daemon env (py "health") None init) = Returned response
  /\ trace (snd (call_daemon env (py "health") None init))
     = exchange env (py "health") None 3.
Proof.
  intros response chunks last env.
  destruct (call_daemon_assembles_partial_writes
              env (py "health") None chunks last [] init) as [_ H];
    [reflexivity|reflexivity|reflexivity|partials|reflexivity|].
  rewrite H. repeat split; vm_compute; reflexivity.
Defined.

(** The outcome of decoding, case by case. *)
Lemma response_value_eq response :
  response_value response
  = match Utf8.decode response with
    | None => Raised UnicodeDecodeError
    | Some text =>
      match json_loads (py_strip text) with
      | None => Raised JSONDecodeError
      | Some v => Returned v
      end
    end.
Proof.
  unfold response_value, decode_response, decode, loads, bind, ret, raise.
  destruct (Utf8.decode response); [destruct (json_loads _)|]; reflexivity.
Qed.




Definition io_only (c : syscall) : Prop :=
  match c with
  | Sendall _ | Recv _ => True
  | _ => False
  end.

Lemma repeat_recv_io n : Forall io_only (repeat (Recv 4096) n).
Proof. induction n; simpl; constructor; simpl; auto. Qed.

(** C8.  Every call that comes to an end, by returning or by raising,
    has issued, in this order: one [socket], one [connect] to the daemon's
    path, then only [sendall] and [recv], and last the [close] of the
    socket.  So the socket is released on every exit path and no second
    connection is ever attempted. *)
Theorem call_daemon_closes_socket env method params w :
  fst (call_daemon env method params w) <> Blocked ->
  exists io,
    Forall io_only io
    /\ trace (snd (call_daemon env method params w))
       = trace w ++ Socket :: Connect (SOCKET_PATH env) :: io ++ [Close].
Proof.
  intros Hend.
  destruct (connect_error env) as [errno|] eqn:Hc.
  { exists []. split; [constructor|].
    now rewrite (call_daemon_connect_fails _ _ _ _ _ Hc). }
  destruct (sendall_error env) as [errno|] eqn:Hs.
  { exists [Sendall (payload env method params)]. split; [repeat constructor|].
    now rewrite (call_daemon_sendall_fails _ _ _ _ _ Hc Hs). }
  rewrite call_daemon_exchange in * by assumption.
  match type of Hend with context [recv_loop ?i ?e ?r ?w0] =>
    destruct (recv_loop_trace i e r w0) as [n Hn];
    destruct (recv_loop i e r w0) as [[response|e'|] w1] end;
    cbn [fst snd finish_call] in *; [| |congruence]; subst w1;
    exists (Sendall (payload env method params) :: repeat (Recv 4096) (S n));
    (split; [constructor; [exact I|apply repeat_recv_io]|]);
    unfold emit; cbn [trace]; now rewrite <- !app_assoc.
Qed.

Lemma call_daemon_closes_socket_witness :
  let env := reachable [Chunk (bytes_lit "oops"); Chunk [newline]] PeerSilent in
  fst (call_daemon env (py "health") None init) = Raised JSONDecodeError
  /\ exists io,
       Forall io_only io
       /\ trace (snd (call_daemon env (py "health") None init))
          = Socket :: Connect (SOCKET_PATH env) :: io ++ [Close].
Proof.
  intros env. split; [vm_compute; reflexivity|].
  apply (call_daemon_closes_socket env (py "health") None init).
  vm_compute. discriminate.
Defined.

(** ** The world is threaded, never inspected *)

(** The world after some more [print] calls. *)
Definition say (ls : list line) (w : world) : world :=
  {| stdout := stdout w ++ ls; trace := trace w |}.

Lemma say_nil w : say [] w = w.
Proof. destruct w; unfold say; simpl; now rewrite app_nil_r. Qed.

Lemma say_say a c w : say c (say a w) = say (a ++ c) w.
Proof. unfold say; simpl; now rewrite app_assoc. Qed.

Lemma say_emit ls cs w : say ls (emit cs w) = emit cs (say ls w).
Proof. reflexivity. Qed.

Lemma print_say l w : print l w = (Returned tt, say [l] w).
Proof. reflexivity. Qed.

Lemma recv_loop_frame incoming : forall e response,
  exists r n, forall w,
    recv_loop incoming e response w = (r, emit (repeat (Recv 4096) n) w).
Proof.
  induction incoming as [|x incoming IH]; intros e response.
  - destruct e; eexists; exists 1%nat; intros w; reflexivity.
  - destruct x as [chunk|errno].
    + simpl. unfold bind at 1.
      destruct (is_empty chunk);
        [eexists; exists 1%nat; intros w; reflexivity|].
      destruct (contains newline (response ++ chunk));
        [eexists; exists 1%nat; intros w; reflexivity|].
      destruct (IH e (response ++ chunk)) as (r & n & H).
      exists r, (S n). intros w. rewrite sys_emit, H, emit_emit. reflexivity.
    + eexists; exists 1%nat; intros w; reflexivity.
Qed.

(** The outcome of a call and the operations it issues depend on its
    environment and arguments only. *)
Lemma call_daemon_frame env method params :
  exists r cs, forall w, call_daemon env method params w = (r, emit cs w).
Proof.
  destruct (connect_error env) as [errno|] eqn:Hc.
  { eexists; eexists; intros w.
    rewrite (call_daemon_connect_fails _ _ _ _ _ Hc). reflexivity. }
  destruct (sendall_error env) as [errno|] eqn:Hs.
  { eexists; eexists; intros w.
    rewrite (call_daemon_sendall_fails _ _ _ _ _ Hc Hs). reflexivity. }
  destruct (recv_loop_frame (incoming env) (at_end env) []) as (r & n & H).
  destruct r as [response|e|].
  - eexists; eexists; intros w. rewrite call_daemon_exchange, H by assumption.
    cbn [finish_call]. rewrite !emit_emit. reflexivity.
  - eexists; eexists; intros w. rewrite call_daemon_exchange, H by assumption.
    cbn [finish_call]. rewrite !emit_emit. reflexivity.
  - eexists; eexists; intros w. rewrite call_daemon_exchange, H by assumption.
    cbn [finish_call]. rewrite !emit_emit. reflexivity.
Qed.

(** The call of this environment returns [v]. *)
Definition daemon_returns (env : environment) (method : pystr)
           (params : option dict) (v : json) : Prop :=
  fst (call_daemon env method params init) = Returned v.

Lemma daemon_returns_at env method params v :
  daemon_returns env method params v ->
  exists cs, forall w,
    call_daemon env method params w = (Returned v, emit cs w).
Proof.
  unfold daemon_returns. intros H.
  destruct (call_daemon_frame env method params) as (r & cs & Hf).
  rewrite Hf in H. cbn [fst] in H. subst r. now exists cs.
Qed.

(** ** The listing routines *)

(** [d.get(k, default)] and [d.get(k)] on a dict. *)
Definition field_or (d : dict) (k : pystr) (default : json) : json :=
  match dict_lookup d k with
  | Some x => x
  | None => default
  end.

Definition field (d : dict) (k : pystr) : json := field_or d k JNull.

Lemma get_default_record d k default w :
  get_default (JObj d) k default w = (Returned (field_or d k default), w).
Proof. unfold get_default, field_or. now destruct (dict_lookup d k). Qed.

Lemma get_record d k w : get (JObj d) k w = (Returned (field d k), w).
Proof. apply get_default_record. Qed.

Definition projects_header : list line :=
  [[Text (10 :: py "🚀 Vercel Projects")]; rule].

Definition error_line (d : dict) : line :=
  [Text (py "  ❌ Error: "); Value (field d (py "error"))].

(** A response whose [ok] is not truthy: the error line and nothing else. *)
Lemma list_projects_not_ok env d w :
  daemon_returns env (py "vercel.projects") (Some []) (JObj d) ->
  truthy (field d (py "ok")) = false ->
  exists cs,
    list_projects env w
    = (Returned tt, emit cs (say (projects_header ++ [error_line d]) w)).
Proof.
  intros Hret Hok. destruct (daemon_returns_at _ _ _ _ Hret) as [cs Hcall].
  exists cs. unfold list_projects, print_error.
  unfold bind at 1. rewrite print_say.
  unfold bind at 1. rewrite print_say.
  unfold bind at 1. rewrite Hcall.
  unfold bind at 1. rewrite get_record. rewrite Hok.
  unfold bind at 1. rewrite get_record. rewrite print_say.
  rewrite !say_emit, !say_say. reflexivity.
Qed.



(** A loop whose body only prints. *)
Lemma for_each_say {A} (body : A -> M unit) (lines : A -> list line) l :
  forall w,
    Forall (fun x => forall w0, body x w0 = (Returned tt, say (lines x) w0)) l ->
    for_each l body w = (Returned tt, say (flat_map lines l) w).
Proof.
  induction l as [|x l IH]; intros w Hl.
  - simpl. now rewrite say_nil.
  - inversion Hl as [|? ? Hx Hl']; subst. cbn [for_each flat_map].
    unfold bind. rewrite Hx, IH by assumption. now rewrite say_say.
Qed.

(** A record of a listing is a dict. *)
Definition is_record (v : json) : Prop :=
  match v with
  | JObj _ => True
  | _ => False
  end.

Definition unknown : json := JStr (py "unknown").

(** What the loop of [list_projects] prints for one record. *)
Definition project_lines (project : json) : list line :=
  match project with
  | JObj d =>
    [[Text (py "  • "); Value (field d (py "name"))];
     [Text (py "    Framework: "); Value (field_or d (py "framework") unknown)];
     [Text (py "    Updated: "); Value (field_or d (py "updatedAt") unknown)];
     []]
  | _ => []
  end.

Definition no_projects : line := [Text (py "  No projects found")].

(** A successful response that lists records: the routine returns, and
    prints the no-results line when there is none and four lines for each
    record otherwise. *)
Lemma list_projects_ok env d inner ps w :
  daemon_returns env (py "vercel.projects") (Some []) (JObj d) ->
  truthy (field d (py "ok")) = true ->
  dict_lookup d (py "result") = Some (JObj inner) ->
  field_or inner (py "projects") (JArr []) = JArr ps ->
  Forall is_record ps ->
  exists cs,
    list_projects env w
    = (Returned tt,
       emit cs (say (projects_header
                     ++ (if is_empty ps then [no_projects] else [])
                     ++ flat_map project_lines ps) w)).
Proof.
  intros Hret Hok Hres Hps Hrec.
  destruct (daemon_returns_at _ _ _ _ Hret) as [cs Hcall].
  exists cs. unfold list_projects.
  unfold bind at 1. rewrite print_say.
  unfold bind at 1. rewrite print_say.
  unfold bind at 1. rewrite Hcall.
  unfold bind at 1. rewrite get_record. rewrite Hok.
  unfold bind at 1. unfold getitem. rewrite Hres. unfold ret at 1.
  unfold bind at 1. rewrite get_default_record, Hps.
  unfold bind at 1.
  assert (Hwhen : forall w0,
    when (negb (truthy (JArr ps))) (print [Text (py "  No projects found")]) w0
    = (Returned tt, say (if is_empty ps then [no_projects] else []) w0)).
  { intros w0. destruct ps; cbn [truthy is_empty negb when];
      [apply print_say|]. unfold ret. now rewrite say_nil. }
  rewrite Hwhen. unfold bind at 1. unfold iter, ret at 1.
  rewrite (for_each_say _ project_lines).
  - rewrite !say_emit, !say_say. reflexivity.
  - eapply Forall_impl; [|exact Hrec]. intros [| | | | | |p] Hp w0;
      try contradiction.
    unfold bind at 1. rewrite get_default_record.
    unfold bind at 1. rewrite get_record.
    unfold bind at 1. rewrite print_say.
    unfold bind at 1. rewrite print_say.
    unfold bind at 1. rewrite get_default_record.
    unfold bind at 1. rewrite print_say. rewrite print_say.
    rewrite !say_say. reflexivity.
Qed.



(** The very response of the claim: no record, the no-results line. *)
Lemma list_projects_no_projects :
  let response :=
    JObj [(py "ok", JBool true);
          (py "result", JObj [(py "projects", JArr [])])] in
  let env := reachable [Chunk (wire response)] PeerSilent in
  list_projects env init
  = (Returned tt,
     {| stdout := projects_header ++ [no_projects];
        trace := exchange env (py "vercel.projects") (Some []) 1 |}).
Proof. vm_compute. reflexivity. Qed.

(** *** Deployments *)

(** A computation that does nothing to the world but print. *)
Definition prints_only {A} (m : M A) : Prop :=
  forall w, exists r more, m w = (r, say more w).

Lemma prints_only_ret {A} (a : A) : prints_only (ret a).
Proof. intros w. exists (Returned a), []. now rewrite say_nil. Qed.

Lemma prints_only_raise {A} e : prints_only (@raise A e).
Proof. intros w. exists (Raised e), []. now rewrite say_nil. Qed.

Lemma prints_only_print l : prints_only (print l).
Proof. intros w. now exists (Returned tt), [l]. Qed.

Lemma prints_only_bind {A B} (m : M A) (f : A -> M B) :
  prints_only m -> (forall a, prints_only (f a)) -> prints_only (x <- m ;; f x).
Proof.
  intros Hm Hf w. destruct (Hm w) as (r & more & H). unfold bind. rewrite H.
  destruct r as [a|e|]; [|now exists (Raised e), more|now exists Blocked, more].
  destruct (Hf a (say more w)) as (r' & more' & H'). rewrite H', say_say.
  now exists r', (more ++ more').
Qed.

Lemma prints_only_when c (m : M unit) : prints_only m -> prints_only (when c m).
Proof. destruct c; [trivial|intros _; apply prints_only_ret]. Qed.

Lemma prints_only_get_default v k default : prints_only (get_default v k default).
Proof.
  destruct v; try apply prints_only_raise. simpl.
  destruct (dict_lookup d k); apply prints_only_ret.
Qed.

Lemma prints_only_get v k : prints_only (get v k).
Proof. apply prints_only_get_default. Qed.

Lemma prints_only_getitem v k : prints_only (getitem v k).
Proof.
  destruct v; try apply prints_only_raise. simpl.
  destruct (dict_lookup d k); [apply prints_only_ret|apply prints_only_raise].
Qed.

Lemma prints_only_slice_to n v : prints_only (slice_to n v).
Proof. destruct v; first [apply prints_only_raise|apply prints_only_ret]. Qed.

Create HintDb prints.
#[local] Hint Resolve prints_only_ret prints_only_raise prints_only_print
  prints_only_when prints_only_get_default prints_only_get
  prints_only_getitem prints_only_slice_to : prints.

(** The marker of a state string: its entry in the table, or the default. *)
Definition icon_of (s : pystr) : pystr :=
  match find (fun kv => pystr_eqb (fst kv) s) state_icons with
  | Some kv => snd kv
  | None => py "⚪"
  end.

Lemma state_icon_str s w : state_icon (JStr s) w = (Returned (icon_of s), w).
Proof.
  unfold state_icon, table_get, icon_of.
  now destruct (find _ state_icons).
Qed.

Lemma pystr_eqb_refl s : pystr_eqb s s = true.
Proof. unfold pystr_eqb. now destruct (list_eq_dec N.eq_dec s s). Qed.

Lemma pystr_eqb_eq s t : pystr_eqb s t = true <-> s = t.
Proof.
  unfold pystr_eqb. destruct (list_eq_dec N.eq_dec s t); split; congruence.
Qed.

Lemma pystr_eqb_neq s t : s <> t -> pystr_eqb s t = false.
Proof. unfold pystr_eqb. now destruct (list_eq_dec N.eq_dec s t). Qed.

(** Every entry of the table is found: its keys are distinct. *)
Lemma icon_of_listed s icon : In (s, icon) state_icons -> icon_of s = icon.
Proof.
  intros [H|[H|[H|[H|[]]]]]; inversion H; subst; vm_compute; reflexivity.
Qed.

Lemma icon_of_unlisted s :
  ~ In s (map fst state_icons) -> icon_of s = py "⚪".
Proof.
  intros Hs. unfold icon_of, state_icons. cbn [find fst].
  rewrite !pystr_eqb_neq; [reflexivity|..];
    intros <-; apply Hs; unfold state_icons; cbn [map fst In]; tauto.
Qed.

Definition no_url : json := JStr (py "no-url").

(** The first line [show_deployment] prints for a record. *)
Definition marker_line (d : dict) (icon : pystr) : line :=
  [Text (py "  "); Text icon; Text (py " ");
   Value (field_or d (py "url") no_url)].

(** A record whose state is a string: the marker line comes first, with
    the marker of that string, whatever happens further down. *)
Lemma show_deployment_marker d s w :
  field_or d (py "state") unknown = JStr s ->
  exists r more,
    show_deployment (JObj d) w
    = (r, say (marker_line d (icon_of s) :: more) w).
Proof.
  intros Hstate. unfold show_deployment.
  unfold bind at 1. rewrite get_default_record. fold unknown. rewrite Hstate.
  unfold bind at 1. rewrite state_icon_str.
  unfold bind at 1. rewrite get_default_record.
  unfold bind at 1. rewrite print_say.
  match goal with |- context [?m (say ?l w)] =>
    assert (Hrest : prints_only m) end.
  { repeat first [ apply prints_only_bind; [|intros ?]
                 | apply prints_only_when
                 | solve [auto with prints] ]. }
  destruct (Hrest (say [marker_line d (icon_of s)] w)) as (r & more & H).
  exists r, more. unfold marker_line, no_url in *. rewrite H, say_say. reflexivity.
Qed.





(** ** The lexer *)

(** The tokens emitted and the state reached on a prefix of the input. *)
Fixpoint scan (st : Lexer.state) (s : pystr)
  : option (list token * Lexer.state) :=
  match s with
  | [] => Some ([], st)
  | c :: s' =>
    match Lexer.step st c with
    | None => None
    | Some (ts, st') =>
      option_map (fun p => (ts ++ fst p, snd p)) (scan st' s')
    end
  end.

Lemma oapp_oapp {A} (l1 l2 : list A) o : oapp l1 (oapp l2 o) = oapp (l1 ++ l2) o.
Proof. destruct o; simpl; [now rewrite app_assoc|reflexivity]. Qed.

Lemma oapp_nil {A} (o : option (list A)) : oapp [] o = o.
Proof. now destruct o. Qed.

(** Lexing a concatenation: lex the first part, go on from the state it
    leaves. *)
Lemma run_app a : forall st c,
  Lexer.run st (a ++ c)
  = obind (scan st a) (fun p => oapp (fst p) (Lexer.run (snd p) c)).
Proof.
  induction a as [|x a IH]; intros st c.
  - cbn [app scan obind fst snd]. now rewrite oapp_nil.
  - cbn [app Lexer.run scan]. destruct (Lexer.step st x) as [[ts st']|]; [|reflexivity].
    rewrite IH. destruct (scan st' a) as [[ts' st'']|]; [|reflexivity].
    cbn [option_map obind fst snd]. apply oapp_oapp.
Qed.

Lemma run_scan st s :
  Lexer.run st s
  = obind (scan st s) (fun p => oapp (fst p) (Lexer.finish (snd p))).
Proof. rewrite <- (app_nil_r s) at 1. apply run_app. Qed.

(** The only states in which a literal is under way are those the lexer
    enters itself: what is left of the literal is made of letters. *)
Definition is_letter (c : N) : bool := in_range 65 90 c || in_range 97 122 c.

Definition sane (st : Lexer.state) : Prop :=
  match st with
  | Lexer.Lit rest _ => forallb is_letter rest = true
  | _ => True
  end.

Lemma idle_sane c ts st : Lexer.idle c = Some (ts, st) -> sane st.
Proof.
  unfold Lexer.idle.
  repeat match goal with
         | |- (if ?x then _ else _) = _ -> _ => destruct x
         end; intros H; inversion H; subst; exact I || reflexivity.
Qed.

Lemma after_sane t c ts st : Lexer.after t c = Some (ts, st) -> sane st.
Proof.
  unfold Lexer.after. destruct (Lexer.idle c) as [[ts' st']|] eqn:Hi; [|discriminate].
  intros H; inversion H; subst. eapply idle_sane; eassumption.
Qed.

Lemma in_str_sane acc c ts st : Lexer.in_str acc c = Some (ts, st) -> sane st.
Proof.
  unfold Lexer.in_str.
  repeat match goal with
         | |- (if ?x then _ else _) = _ -> _ => destruct x
         end; intros H; inversion H; subst; exact I.
Qed.

Lemma in_esc_sane acc c ts st : Lexer.in_esc acc c = Some (ts, st) -> sane st.
Proof.
  unfold Lexer.in_esc. destruct (Lexer.escape_of c).
  - intros H; inversion H; exact I.
  - destruct (c =? 117); intros H; inversion H; exact I.
Qed.

Lemma uni_done_sane acc hi u : sane (Lexer.uni_done acc hi u).
Proof.
  unfold Lexer.uni_done, Lexer.uni_fresh.
  destruct hi; [destruct (Lexer.is_low u)|]; try destruct (Lexer.is_high u);
    exact I.
Qed.

Lemma step_sane st c ts st' :
  sane st -> Lexer.step st c = Some (ts, st') -> sane st'.
Proof.
  intros Hst. destruct st; cbn [Lexer.step];
    eauto using idle_sane, in_str_sane, in_esc_sane.
  - destruct (Lexer.hexval c); [|discriminate].
    destruct k as [|[|k]]; intros H; inversion H; subst;
      [apply uni_done_sane|exact I].
  - destruct (c =? 92); [intros H; inversion H; exact I|apply in_str_sane].
  - destruct (c =? 117); [intros H; inversion H; exact I|apply in_esc_sane].
  - destruct rest as [|x [|y rest]]; [discriminate| |];
      destruct (c =? x); intros H; inversion H; subst; [exact I|].
    cbn [sane forallb] in *. now apply andb_prop in Hst as [_ Hst].
  - repeat match goal with
           | |- (if ?x then _ else _) = _ -> _ => destruct x
           end; intros H; inversion H; subst; exact I || reflexivity.
  - repeat match goal with
           | |- (if ?x then _ else _) = _ -> _ => destruct x
           end; try apply after_sane; intros H; inversion H; subst; exact I.
  - repeat match goal with
           | |- (if ?x then _ else _) = _ -> _ => destruct x
           end; try apply after_sane; intros H; inversion H; subst; exact I.
  - destruct (Lexer.is_digit c); intros H; inversion H; exact I.
  - repeat match goal with
           | |- (if ?x then _ else _) = _ -> _ => destruct x
           end; try apply after_sane; intros H; inversion H; subst; exact I.
  - repeat match goal with
           | |- (if ?x then _ else _) = _ -> _ => destruct x
           end; intros H; inversion H; subst; exact I.
  - destruct (Lexer.is_digit c); intros H; inversion H; exact I.
  - repeat match goal with
           | |- (if ?x then _ else _) = _ -> _ => destruct x
           end; try apply after_sane; intros H; inversion H; subst; exact I.
Qed.

Lemma scan_sane s : forall st ts st',
  sane st -> scan st s = Some (ts, st') -> sane st'.
Proof.
  induction s as [|c s IH]; intros st ts st' Hst; cbn [scan].
  - intros H; inversion H; now subst.
  - destruct (Lexer.step st c) as [[ts1 st1]|] eqn:Hstep; [|discriminate].
    destruct (scan st1 s) as [[ts2 st2]|] eqn:Hscan; [|discriminate].
    intros H; inversion H; subst. eapply IH; [|eassumption].
    eapply step_sane; eassumption.
Qed.

(** Boolean tests on characters, decided by arithmetic. *)
Ltac btest :=
  match goal with
  | |- context [N.eqb ?a ?c] => destruct (N.eqb_spec a c)
  | |- context [N.ltb ?a ?c] => destruct (N.ltb_spec a c)
  | |- context [N.leb ?a ?c] => destruct (N.leb_spec a c)
  end; cbn [orb andb negb]; try lia.

Ltac btests := repeat btest.

Lemma py_isspace_cases c :
  py_isspace c = true ->
  9 <= c <= 13 \/ 28 <= c <= 32 \/ c = 133 \/ 160 <= c.
Proof.
  unfold py_isspace, in_range. intros H.
  destruct (N.le_gt_cases 160 c); [lia|].
  revert H. btests; try discriminate.
Qed.

Lemma is_ws_space c : Lexer.is_ws c = true -> py_isspace c = true.
Proof.
  unfold Lexer.is_ws. intros H.
  apply orb_prop in H as [H|H]; [apply orb_prop in H as [H|H];
    [apply orb_prop in H as [H|H]|]|]; apply N.eqb_eq in H; subst; reflexivity.
Qed.

Lemma is_letter_bounds c : is_letter c = true -> 65 <= c <= 122.
Proof. unfold is_letter, in_range. btests; discriminate. Qed.

Lemma idle_space c :
  py_isspace c = true ->
  Lexer.idle c = if Lexer.is_ws c then Some ([], Lexer.Idle) else None.
Proof.
  intros H. apply py_isspace_cases in H.
  unfold Lexer.idle. destruct (Lexer.is_ws c); [reflexivity|].
  unfold Lexer.is_digit, in_range. btests; reflexivity.
Qed.

Lemma after_space t c :
  py_isspace c = true ->
  Lexer.after t c = if Lexer.is_ws c then Some ([t], Lexer.Idle) else None.
Proof.
  intros H. unfold Lexer.after. rewrite idle_space by assumption.
  now destruct (Lexer.is_ws c).
Qed.

Lemma in_str_space acc c :
  py_isspace c = true ->
  Lexer.in_str acc c = None
  \/ Lexer.in_str acc c = Some ([], Lexer.Str (c :: acc)).
Proof.
  intros H. apply py_isspace_cases in H. unfold Lexer.in_str. btests; auto.
Qed.

Lemma in_esc_space acc c : py_isspace c = true -> Lexer.in_esc acc c = None.
Proof.
  intros H. apply py_isspace_cases in H.
  unfold Lexer.in_esc, Lexer.escape_of. btests; reflexivity.
Qed.

(** A whitespace character at the very end of the input: JSON whitespace
    ends the input as it stands, any other space is refused. *)
Lemma run_space st c :
  sane st -> py_isspace c = true ->
  Lexer.run st [c] = if Lexer.is_ws c then Lexer.finish st else None.
Proof.
  intros Hst Hc. pose proof (py_isspace_cases c Hc) as Hr.
  cbn [Lexer.run].
  destruct st; cbn [Lexer.step Lexer.finish];
    rewrite ?idle_space, ?after_space by assumption;
    try (destruct (Lexer.is_ws c); reflexivity).
  - destruct (in_str_space acc c Hc) as [-> | ->];
      destruct (Lexer.is_ws c); reflexivity.
  - rewrite in_esc_space by assumption. now destruct (Lexer.is_ws c).
  - unfold Lexer.hexval, in_range. btests; now destruct (Lexer.is_ws c).
  - btest; destruct (in_str_space (hi :: acc) c Hc) as [-> | ->];
      destruct (Lexer.is_ws c); reflexivity.
  - btest; rewrite in_esc_space by assumption. now destruct (Lexer.is_ws c).
  - destruct rest as [|x [|y rest]]; [now destruct (Lexer.is_ws c)| |];
      cbn [sane forallb] in Hst; apply andb_prop in Hst as [Hx _];
      apply is_letter_bounds in Hx; btest; now destruct (Lexer.is_ws c).
  - unfold Lexer.is_digit, in_range. btests; now destruct (Lexer.is_ws c).
  - btests; destruct (Lexer.is_ws c); reflexivity.
  - unfold Lexer.is_digit, in_range. btests; destruct (Lexer.is_ws c); reflexivity.
  - unfold Lexer.is_digit, in_range. btests; now destruct (Lexer.is_ws c).
  - unfold Lexer.is_digit, in_range. btests; destruct (Lexer.is_ws c); reflexivity.
  - unfold Lexer.is_digit, in_range. btests; now destruct (Lexer.is_ws c).
  - unfold Lexer.is_digit, in_range. btests; now destruct (Lexer.is_ws c).
  - unfold Lexer.is_digit, in_range. btests; destruct (Lexer.is_ws c); reflexivity.
Qed.

(** One more whitespace character at the end of an input. *)
Lemma run_snoc_space st s c :
  sane st -> py_isspace c = true ->
  Lexer.run st (s ++ [c]) = if Lexer.is_ws c then Lexer.run st s else None.
Proof.
  intros Hst Hc. rewrite run_app, run_scan.
  destruct (scan st s) as [[ts st']|] eqn:Hscan; cbn [obind fst snd].
  - rewrite run_space; [|eapply scan_sane; eassumption|assumption].
    now destruct (Lexer.is_ws c).
  - now destruct (Lexer.is_ws c).
Qed.

Lemma run_snoc_ws st s c :
  sane st -> Lexer.is_ws c = true -> Lexer.run st (s ++ [c]) = Lexer.run st s.
Proof.
  intros Hst Hc. rewrite run_snoc_space; auto using is_ws_space. now rewrite Hc.
Qed.

Lemma run_cons_space s c ts :
  py_isspace c = true ->
  Lexer.run Lexer.Idle (c :: s) = Some ts -> Lexer.run Lexer.Idle s = Some ts.
Proof.
  intros Hc. cbn [Lexer.run Lexer.step]. rewrite idle_space by assumption.
  destruct (Lexer.is_ws c); [|discriminate]. now rewrite oapp_nil.
Qed.

Lemma lex_lstrip s ts :
  Lexer.lex s = Some ts -> Lexer.lex (py_lstrip s) = Some ts.
Proof.
  unfold Lexer.lex, py_lstrip. induction s as [|c s IH]; [trivial|].
  cbn [dropwhile]. destruct (py_isspace c) eqn:Hc; [|trivial].
  intros H. apply IH. eapply run_cons_space; eassumption.
Qed.

Lemma lex_rstrip s ts :
  Lexer.lex s = Some ts -> Lexer.lex (py_rstrip s) = Some ts.
Proof.
  unfold Lexer.lex, py_rstrip. induction s as [|c s IH] using rev_ind; [trivial|].
  rewrite rev_app_distr. cbn [rev app dropwhile].
  destruct (py_isspace c) eqn:Hc.
  - intros H. apply IH. rewrite run_snoc_space in H by (exact I || assumption).
    now destruct (Lexer.is_ws c).
  - intros H. cbn [rev]. now rewrite rev_involutive.
Qed.

(** Stripping does not change the tokens of a text that has any. *)
Lemma lex_strip s ts :
  Lexer.lex s = Some ts -> Lexer.lex (py_strip s) = Some ts.
Proof. intros H. unfold py_strip. now apply lex_rstrip, lex_lstrip. Qed.

(** [json.loads] of a document accepts it stripped. *)
Lemma json_loads_strip s v :
  json_loads s = Some v -> json_loads (py_strip s) = Some v.
Proof.
  unfold json_loads. destruct (Lexer.lex s) as [ts|] eqn:Hlex; [|discriminate].
  now rewrite (lex_strip s ts Hlex).
Qed.

Lemma is_ws_newline : Lexer.is_ws 10 = true.
Proof. reflexivity. Qed.

(** A document is still one with a newline after it. *)
Lemma json_loads_newline s v :
  json_loads s = Some v -> json_loads (s ++ [10]) = Some v.
Proof.
  unfold json_loads, Lexer.lex. now rewrite run_snoc_ws by (exact I || reflexivity).
Qed.

(** Where the input may end, a newline ends the token under way. *)
Lemma step_newline st tf :
  Lexer.finish st = Some tf -> Lexer.step st 10 = Some (tf, Lexer.Idle).
Proof.
  destruct st; cbn [Lexer.finish]; intros H; inversion H; reflexivity.
Qed.

(** A newline between two texts that both have tokens separates them. *)
Lemma run_newline st a c ta :
  Lexer.run st a = Some ta ->
  Lexer.run st (a ++ 10 :: c) = oapp ta (Lexer.run Lexer.Idle c).
Proof.
  intros Ha. rewrite run_app. rewrite run_scan in Ha.
  destruct (scan st a) as [[ts st']|] eqn:Hscan; [|discriminate].
  cbn [obind fst snd] in *.
  destruct (Lexer.finish st') as [tf|] eqn:Hf; [|discriminate].
  cbn [Lexer.run]. rewrite (step_newline st' tf Hf).
  cbn [oapp option_map] in Ha. inversion Ha; subst.
  now rewrite oapp_oapp.
Qed.

(** ** UTF-8 on a concatenation *)

Lemma ocons_some {A} (x : A) o l :
  ocons x o = Some l -> exists l', o = Some l' /\ l = x :: l'.
Proof. destruct o as [l'|]; [|discriminate]. intros H; inversion H; eauto. Qed.

Lemma decode_N_app_bounded n : forall a ta c,
  (length a <= n)%nat -> Utf8.decode_N a = Some ta ->
  Utf8.decode_N (a ++ c) = option_map (app ta) (Utf8.decode_N c).
Proof.
  induction n as [|n IH]; intros a ta c Hn Ha.
  - destruct a; [|simpl in Hn; lia]. inversion Ha; subst. cbn [app].
    now destruct (Utf8.decode_N c).
  - destruct a as [|b0 a].
    { inversion Ha; subst. cbn [app]. now destruct (Utf8.decode_N c). }
    cbn [length] in Hn. cbn [app Utf8.decode_N] in *.
    destruct (b0 <? 128).
    { apply ocons_some in Ha as (l' & Ha & ->).
      rewrite (IH a l' c) by (lia || assumption).
      now destruct (Utf8.decode_N c). }
    destruct (in_range 194 223 b0).
    { destruct a as [|b1 a]; [discriminate|]. cbn [app length] in *.
      destruct (Utf8.is_cont b1); [|discriminate].
      apply ocons_some in Ha as (l' & Ha & ->).
      rewrite (IH a l' c) by (lia || assumption).
      now destruct (Utf8.decode_N c). }
    destruct (in_range 224 239 b0).
    { destruct a as [|b1 [|b2 a]]; try discriminate. cbn [app length] in *.
      destruct (_ && _); [|discriminate].
      apply ocons_some in Ha as (l' & Ha & ->).
      rewrite (IH a l' c) by (lia || assumption).
      now destruct (Utf8.decode_N c). }
    destruct (in_range 240 244 b0); [|discriminate].
    destruct a as [|b1 [|b2 [|b3 a]]]; try discriminate. cbn [app length] in *.
    destruct (_ && _); [|discriminate].
    apply ocons_some in Ha as (l' & Ha & ->).
    rewrite (IH a l' c) by (lia || assumption).
    now destruct (Utf8.decode_N c).
Qed.

Lemma decode_app a c ta :
  Utf8.decode a = Some ta ->
  Utf8.decode (a ++ c) = option_map (app ta) (Utf8.decode c).
Proof.
  unfold Utf8.decode. rewrite map_app. intros H.
  now apply (decode_N_app_bounded (length (map Byte.to_N a))).
Qed.

Lemma decode_newline : Utf8.decode [newline] = Some [10].
Proof. reflexivity. Qed.

(** ** Responses that are one line *)

(** The bytes [line] are a JSON text of [v]: UTF-8 that [json.loads]
    reads as [v]. *)
Definition serializes (line : bytes) (v : json) : Prop :=
  exists text, Utf8.decode line = Some text /\ json_loads text = Some v.

(** A serialized value and its newline decode to the value. *)
Lemma response_value_line line v :
  serializes line v -> response_value (line ++ [newline]) = Returned v.
Proof.
  intros (text & Hd & Hv). rewrite response_value_eq.
  rewrite (decode_app _ _ _ Hd), decode_newline. cbn [option_map].
  now rewrite (json_loads_strip _ v (json_loads_newline _ _ Hv)).
Qed.

(** Chunks that make up a line and its newline: all but the last are
    partial writes, the last one carries the newline. *)
Lemma chunks_of_line (chunks : list bytes) line :
  Forall (fun chunk => chunk <> []) chunks ->
  List.concat chunks = line ++ [newline] ->
  contains newline line = false ->
  exists pre last,
    chunks = pre ++ [last] /\ Forall partial pre
    /\ contains newline last = true.
Proof.
  intros Hne Hcat Hline.
  destruct (exists_last (l := chunks)) as (pre & last & ->).
  { intros ->. destruct line; discriminate. }
  exists pre, last. split; [reflexivity|].
  apply Forall_app in Hne as [Hpre Hlast]. inversion Hlast as [|? ? Hl _]; subst.
  rewrite concat_app in Hcat. cbn [List.concat] in Hcat. rewrite app_nil_r in Hcat.
  destruct (exists_last Hl) as (last' & x & ->).
  rewrite app_assoc in Hcat. apply app_inj_tail in Hcat as [Hcat ->].
  subst line. rewrite contains_app in Hline. apply orb_false_elim in Hline as [Hp _].
  split.
  - clear - Hpre Hp. induction pre as [|p pre IH]; [constructor|].
    inversion Hpre; subst. cbn [List.concat] in Hp. rewrite contains_app in Hp.
    apply orb_false_elim in Hp as [Hp1 Hp2]. constructor; [now split|auto].
  - rewrite contains_app. cbn. now rewrite orb_true_r.
Qed.



(** ** What may follow a document *)

Lemma uni_done_open acc hi u : Lexer.uni_done acc hi u <> Lexer.Idle.
Proof.
  unfold Lexer.uni_done, Lexer.uni_fresh.
  destruct hi; [destruct (Lexer.is_low u)|]; try destruct (Lexer.is_high u);
    discriminate.
Qed.

(** While a token is under way, a step emits a token or stays in one. *)
Lemma step_open st c ts st' :
  st <> Lexer.Idle -> Lexer.step st c = Some (ts, st') ->
  ts <> [] \/ st' <> Lexer.Idle.
Proof.
  intros Hst. destruct st; try congruence; clear Hst; cbn [Lexer.step];
    unfold Lexer.in_str, Lexer.in_esc, Lexer.after;
    repeat match goal with
           | |- match ?x with _ => _ end = _ -> _ => destruct x
           end;
    intros H; inversion H; subst;
    solve [left; discriminate | right; discriminate
          | right; apply uni_done_open].
Qed.

Lemma run_open s : forall st ts,
  st <> Lexer.Idle -> Lexer.run st s = Some ts -> ts <> [].
Proof.
  induction s as [|c s IH]; intros st ts Hst; cbn [Lexer.run].
  - destruct st; try congruence; cbn [Lexer.finish]; intros H; inversion H;
      discriminate.
  - destruct (Lexer.step st c) as [[ts1 st1]|] eqn:Hstep; [|discriminate].
    destruct (Lexer.run st1 s) as [ts2|] eqn:Hrun; [|discriminate].
    cbn [oapp option_map]. intros H; inversion H; subst.
    destruct (step_open _ _ _ _ Hst Hstep) as [Hts|Hst1].
    + destruct ts1; [congruence|discriminate].
    + specialize (IH _ _ Hst1 Hrun). destruct ts1; [exact IH|discriminate].
Qed.

Lemma idle_open c ts st :
  Lexer.is_ws c = false -> Lexer.idle c = Some (ts, st) ->
  ts <> [] \/ st <> Lexer.Idle.
Proof.
  unfold Lexer.idle. intros ->.
  repeat match goal with
         | |- (if ?x then _ else _) = _ -> _ => destruct x
         end;
    intros H; inversion H; subst;
    solve [left; discriminate | right; discriminate].
Qed.

(** A text without tokens is JSON whitespace. *)
Lemma lex_no_token s :
  Lexer.lex s = Some [] -> forallb Lexer.is_ws s = true.
Proof.
  unfold Lexer.lex. induction s as [|c s IH]; [reflexivity|].
  cbn [Lexer.run Lexer.step forallb].
  destruct (Lexer.idle c) as [[ts1 st1]|] eqn:Hidle; [|discriminate].
  destruct (Lexer.run st1 s) as [ts2|] eqn:Hrun; [|discriminate].
  cbn [oapp option_map]. intros H. inversion H as [Happ].
  apply app_eq_nil in Happ as [-> ->].
  destruct (Lexer.is_ws c) eqn:Hws.
  - unfold Lexer.idle in Hidle. rewrite Hws in Hidle. inversion Hidle; subst.
    now apply IH.
  - destruct (idle_open _ _ _ Hws Hidle) as [Hts|Hst]; [congruence|].
    now apply run_open in Hrun.
Qed.

Lemma forallb_ws_space s :
  forallb Lexer.is_ws s = true -> forallb py_isspace s = true.
Proof.
  induction s as [|c s IH]; [reflexivity|]. cbn [forallb]. intros H.
  apply andb_prop in H as [Hc Hs]. now rewrite (is_ws_space c Hc), IH.
Qed.

(** *** Stripping *)

Lemma dropwhile_all {A} (p : A -> bool) l :
  forallb p l = true -> dropwhile p l = [].
Proof.
  induction l as [|x l IH]; [reflexivity|]. cbn [forallb dropwhile]. intros H.
  apply andb_prop in H as [-> Hl]. auto.
Qed.

Lemma dropwhile_app_all {A} (p : A -> bool) l1 l2 :
  forallb p l1 = true -> dropwhile p (l1 ++ l2) = dropwhile p l2.
Proof.
  induction l1 as [|x l1 IH]; [reflexivity|]. cbn [forallb dropwhile app].
  intros H. apply andb_prop in H as [-> Hl]. auto.
Qed.

Lemma dropwhile_app_some {A} (p : A -> bool) l1 l2 :
  forallb p l1 = false -> dropwhile p (l1 ++ l2) = dropwhile p l1 ++ l2.
Proof.
  induction l1 as [|x l1 IH]; [discriminate|]. cbn [forallb dropwhile app].
  destruct (p x); [exact IH|reflexivity].
Qed.

Lemma forallb_rev {A} (p : A -> bool) l : forallb p (rev l) = forallb p l.
Proof.
  induction l as [|x l IH]; [reflexivity|]. cbn [rev forallb].
  rewrite forallb_app, IH. cbn [forallb]. rewrite andb_true_r. apply andb_comm.
Qed.

Lemma rstrip_app_all s t :
  forallb py_isspace t = true -> py_rstrip (s ++ t) = py_rstrip s.
Proof.
  intros H. unfold py_rstrip. rewrite rev_app_distr.
  rewrite dropwhile_app_all; [reflexivity|now rewrite forallb_rev].
Qed.

Lemma rstrip_app_some s t :
  forallb py_isspace t = false -> py_rstrip (s ++ t) = s ++ py_rstrip t.
Proof.
  intros H. unfold py_rstrip. rewrite rev_app_distr.
  rewrite dropwhile_app_some by (now rewrite forallb_rev).
  now rewrite rev_app_distr, rev_involutive.
Qed.

Lemma lstrip_app_some s t :
  forallb py_isspace s = false -> py_lstrip (s ++ t) = py_lstrip s ++ t.
Proof. apply dropwhile_app_some. Qed.

Lemma dropwhile_head {A} (p : A -> bool) l x l' :
  dropwhile p l = x :: l' -> p x = false.
Proof.
  induction l as [|y l IH]; [discriminate|]. cbn [dropwhile].
  destruct (p y) eqn:Hy; [exact IH|]. intros H; inversion H; now subst.
Qed.

(** The right strip of a text that is not all space ends with a character
    that is no space. *)
Lemma rstrip_last t :
  forallb py_isspace t = false ->
  exists t' c, py_rstrip t = t' ++ [c] /\ py_isspace c = false.
Proof.
  intros H. unfold py_rstrip.
  destruct (dropwhile py_isspace (rev t)) as [|c r] eqn:Hd.
  - rewrite <- forallb_rev in H. revert Hd H. generalize (rev t) as l.
    induction l as [|x l IH]; [discriminate|]. cbn [dropwhile forallb].
    destruct (py_isspace x); [exact IH|discriminate].
  - exists (rev r), c. split; [reflexivity|]. eapply dropwhile_head; eassumption.
Qed.

(** A text that has a document in it is not all space. *)
Lemma json_loads_not_space s v :
  json_loads s = Some v -> forallb py_isspace s = false.
Proof.
  unfold json_loads. destruct (Lexer.lex s) as [ts|] eqn:Hlex; [|discriminate].
  cbn [obind]. intros Hp. destruct (forallb py_isspace s) eqn:Hs; [|reflexivity].
  exfalso. assert (Hrs : py_rstrip s = []).
  { unfold py_rstrip. rewrite dropwhile_all; [reflexivity|now rewrite forallb_rev]. }
  apply lex_rstrip in Hlex. rewrite Hrs in Hlex. inversion Hlex; subst.
  discriminate.
Qed.

(** *** The parser on a concatenation *)

Lemma parser_run_app a : forall st c,
  Parser.run st (a ++ c) = obind (Parser.run st a) (fun st' => Parser.run st' c).
Proof.
  induction a as [|t a IH]; intros st c; [reflexivity|].
  cbn [app Parser.run]. destruct (Parser.step st t); [apply IH|reflexivity].
Qed.

(** Tokens after a complete document are refused: [Extra data]. *)
Lemma parse_extra ts1 ts2 v :
  Parser.parse ts1 = Some v -> ts2 <> [] -> Parser.parse (ts1 ++ ts2) = None.
Proof.
  unfold Parser.parse. rewrite parser_run_app.
  destruct (Parser.run (Parser.Value []) ts1) as [[]|]; try discriminate.
  intros _ H. destruct ts2; [congruence|reflexivity].
Qed.

(** A document, a newline, and then something that is not all space. *)
Lemma json_loads_extra s v t :
  json_loads s = Some v -> forallb py_isspace t = false ->
  json_loads (py_strip (s ++ 10 :: t)) = None.
Proof.
  intros Hv Ht. pose proof (json_loads_not_space _ _ Hv) as Hs.
  unfold json_loads in Hv.
  destruct (Lexer.lex s) as [ts1|] eqn:Hlex; [|discriminate]. cbn [obind] in Hv.
  unfold py_strip. rewrite lstrip_app_some by assumption.
  rewrite rstrip_app_some by (cbn [forallb]; now rewrite Ht, andb_false_r).
  change (10 :: t) with ([10] ++ t). rewrite rstrip_app_some by assumption.
  destruct (rstrip_last t Ht) as (t' & c & -> & Hc). cbn [app].
  unfold json_loads, Lexer.lex.
  rewrite (run_newline _ _ _ _ (lex_lstrip _ _ Hlex)).
  destruct (Lexer.run Lexer.Idle (t' ++ [c])) as [ts2|] eqn:Hrun; [|reflexivity].
  cbn [oapp option_map obind]. apply parse_extra with (v := v); [assumption|].
  intros ->. apply lex_no_token in Hrun. rewrite forallb_app in Hrun.
  apply andb_prop in Hrun as [_ Hrun]. cbn [forallb] in Hrun.
  rewrite andb_true_r in Hrun. apply is_ws_space in Hrun. congruence.
Qed.

(** A document, a newline, and then only space. *)
Lemma json_loads_trailing_space s v t :
  json_loads s = Some v -> forallb py_isspace t = true ->
  json_loads (py_strip (s ++ 10 :: t)) = Some v.
Proof.
  intros Hv Ht. pose proof (json_loads_not_space _ _ Hv) as Hs.
  unfold py_strip. rewrite lstrip_app_some by assumption.
  rewrite rstrip_app_all by (cbn [forallb]; now rewrite Ht).
  now apply json_loads_strip.
Qed.

(** What follows the first line of a buffer decides the outcome. *)
Lemma response_value_after_line line v tail :
  serializes line v ->
  response_value (line ++ newline :: tail)
  = match Utf8.decode tail with
    | None => Raised UnicodeDecodeError
    | Some after =>
      if forallb py_isspace after then Returned v else Raised JSONDecodeError
    end.
Proof.
  intros (text & Hd & Hv). rewrite response_value_eq.
  rewrite (decode_app _ _ _ Hd).
  change (newline :: tail) with ([newline] ++ tail).
  rewrite (decode_app _ _ _ decode_newline).
  destruct (Utf8.decode tail) as [after|]; [|reflexivity].
  cbn [option_map app]. destruct (forallb py_isspace after) eqn:Ha.
  - now rewrite (json_loads_trailing_space _ _ _ Hv Ha).
  - now rewrite (json_loads_extra _ _ _ Hv Ha).
Qed.

Lemma serializes_not_space line v after :
  serializes line v -> Utf8.decode (line ++ [newline]) = Some after ->
  forallb py_isspace after = false.
Proof.
  intros (text & Hd & Hv). rewrite (decode_app _ _ _ Hd), decode_newline.
  cbn [option_map]. intros H; inversion H; subst. rewrite forallb_app.
  now rewrite (json_loads_not_space _ _ Hv).
Qed.




(** ** Numbers as text *)

Lemma size_nat_gt n : n < 2 ^ N.of_nat (N.size_nat n).
Proof.
  destruct n as [|p]; [reflexivity|]. cbn [N.size_nat].
  induction p as [p IH|p IH|]; cbn [Pos.size_nat];
    rewrite ?Nat2N.inj_succ, ?N.pow_succ_r'; lia.
Qed.

(** The value of decimal digits read after the value [a]. *)
Definition digits_value (a : N) (ds : pystr) : N :=
  fold_left (fun a c => a * 10 + (c - 48)) ds a.

Definition all_digits (ds : pystr) : Prop :=
  Forall (fun c => 48 <= c <= 57) ds.

Lemma digits_spec fuel : forall n acc,
  0 < n -> n < 2 ^ N.of_nat fuel ->
  exists c ds,
    Encoder.digits fuel n acc = c :: ds ++ acc
    /\ 49 <= c <= 57 /\ all_digits ds /\ digits_value (c - 48) ds = n.
Proof.
  induction fuel as [|fuel IH]; intros n acc Hpos Hlt.
  - cbn in Hlt. lia.
  - cbn [Encoder.digits]. pose proof (mod10_lt n) as Hm.
    pose proof (N.div_mod n 10 ltac:(lia)) as Hdm.
    set (q := n / 10) in *. set (r := n mod 10) in *. clearbody q r.
    destruct (N.eqb_spec q 0) as [Hq|Hq].
    + exists (48 + r), []. cbn [app digits_value fold_left].
      repeat split; try constructor; lia.
    + rewrite Nat2N.inj_succ, N.pow_succ_r' in Hlt.
      set (P := 2 ^ N.of_nat fuel) in *.
      destruct (IH q ((48 + r) :: acc)) as (c & ds & -> & Hc & Hds & Hv);
        [lia|clearbody P; lia|].
      exists c, (ds ++ [48 + r]). rewrite <- app_assoc. cbn [app].
      repeat split; try lia.
      * apply Forall_app. split; [assumption|]. repeat constructor; lia.
      * unfold digits_value in *. rewrite fold_left_app, Hv. cbn [fold_left]. lia.
Qed.

Lemma decimal_zero : Encoder.decimal 0 = [48].
Proof. reflexivity. Qed.

Lemma decimal_pos n :
  0 < n ->
  exists c ds,
    Encoder.decimal n = c :: ds
    /\ 49 <= c <= 57 /\ all_digits ds /\ digits_value (c - 48) ds = n.
Proof.
  intros Hn. unfold Encoder.decimal.
  destruct (digits_spec (S (N.size_nat n)) n [] Hn) as (c & ds & H & Hc & Hds & Hv).
  - pose proof (size_nat_gt n). rewrite Nat2N.inj_succ, N.pow_succ_r'.
    set (P := 2 ^ N.of_nat (N.size_nat n)) in *. clearbody P. lia.
  - exists c, ds. rewrite H, app_nil_r. auto.
Qed.

(** The decimal text of a number: digits, whose value is the number. *)
Lemma decimal_digits n :
  exists c ds,
    Encoder.decimal n = c :: ds
    /\ 48 <= c <= 57 /\ all_digits ds /\ digits_value (c - 48) ds = n.
Proof.
  destruct (N.eq_dec n 0) as [->|Hn].
  - exists 48, []. repeat split; try constructor; lia.
  - destruct (decimal_pos n) as (c & ds & H & Hc & Hds & Hv); [lia|].
    exists c, ds. repeat split; auto; lia.
Qed.

Lemma run_cons st c s :
  Lexer.run st (c :: s)
  = match Lexer.step st c with
    | None => None
    | Some (ts, st') => oapp ts (Lexer.run st' s)
    end.
Proof. reflexivity. Qed.

(** One step of the lexer on a character that is known. *)
Ltac lex_step :=
  rewrite run_cons;
  match goal with
  | |- context [Lexer.step ?st ?c] =>
    let r := eval vm_compute in (Lexer.step st c) in
    change (Lexer.step st c) with r
  end;
  cbv beta iota; rewrite ?oapp_nil.

Lemma is_digit_true c : 48 <= c <= 57 -> Lexer.is_digit c = true.
Proof. unfold Lexer.is_digit, in_range. btests; reflexivity. Qed.

Lemma run_int_digits neg ds : forall a rest,
  all_digits ds ->
  Lexer.run (Lexer.Int neg a) (ds ++ rest)
  = Lexer.run (Lexer.Int neg (digits_value a ds)) rest.
Proof.
  induction ds as [|c ds IH]; intros a rest Hds; [reflexivity|].
  inversion Hds; subst. cbn [app]. rewrite run_cons. cbn [Lexer.step].
  rewrite is_digit_true by assumption. rewrite oapp_nil. now apply IH.
Qed.

Lemma run_exp_digits neg m k eneg ds : forall a rest,
  all_digits ds ->
  Lexer.run (Lexer.ExpDig neg m k eneg a) (ds ++ rest)
  = Lexer.run (Lexer.ExpDig neg m k eneg (digits_value a ds)) rest.
Proof.
  induction ds as [|c ds IH]; intros a rest Hds; [reflexivity|].
  inversion Hds; subst. cbn [app]. rewrite run_cons. cbn [Lexer.step].
  rewrite is_digit_true by assumption. rewrite oapp_nil. now apply IH.
Qed.

(** What may stand after a number: the end of the text, or a character
    that cannot continue the number. *)
Definition ends_number (rest : pystr) : Prop :=
  match rest with
  | [] => True
  | c :: _ => Lexer.is_digit c = false /\ c <> 46 /\ c <> 101 /\ c <> 69
  end.

Lemma run_after t c rest :
  match Lexer.after t c with
  | None => None
  | Some (ts, st') => oapp ts (Lexer.run st' rest)
  end = oapp [t] (Lexer.run Lexer.Idle (c :: rest)).
Proof.
  rewrite run_cons. cbn [Lexer.step]. unfold Lexer.after.
  destruct (Lexer.idle c) as [[ts st]|]; [|reflexivity].
  now rewrite oapp_oapp.
Qed.

Lemma run_int_end neg n rest :
  ends_number rest ->
  Lexer.run (Lexer.Int neg n) rest
  = oapp [TInt (Lexer.signed neg n)] (Lexer.run Lexer.Idle rest).
Proof.
  destruct rest as [|c rest]; [reflexivity|]. intros (Hd & H1 & H2 & H3).
  rewrite run_cons. cbn [Lexer.step]. rewrite Hd.
  repeat btest. apply run_after.
Qed.

Lemma run_zero_end neg rest :
  ends_number rest ->
  Lexer.run (Lexer.Zero neg) rest = oapp [TInt 0] (Lexer.run Lexer.Idle rest).
Proof.
  destruct rest as [|c rest]; [reflexivity|]. intros (Hd & H1 & H2 & H3).
  rewrite run_cons. cbn [Lexer.step]. repeat btest. apply run_after.
Qed.

Lemma run_exp_end neg m k eneg e rest :
  ends_number rest ->
  Lexer.run (Lexer.ExpDig neg m k eneg e) rest
  = oapp [TFloat (FDec neg m (Lexer.signed eneg e - k))]
         (Lexer.run Lexer.Idle rest).
Proof.
  destruct rest as [|c rest]; [reflexivity|]. intros (Hd & H1 & H2 & H3).
  rewrite run_cons. cbn [Lexer.step]. rewrite Hd. apply run_after.
Qed.

Lemma idle_digit c :
  49 <= c <= 57 -> Lexer.idle c = Some ([], Lexer.Int false (c - 48)).
Proof.
  intros Hc. unfold Lexer.idle, Lexer.is_ws, Lexer.is_digit, in_range.
  btests; reflexivity.
Qed.

Lemma minus_digit c :
  49 <= c <= 57 ->
  Lexer.step Lexer.Minus c = Some ([], Lexer.Int true (c - 48)).
Proof.
  intros Hc. cbn [Lexer.step]. unfold Lexer.is_digit, in_range.
  btests; reflexivity.
Qed.

(** The state after an optional sign and the digits of [n]. *)
Definition number_state (neg : bool) (n : N) : Lexer.state :=
  if n =? 0 then Lexer.Zero neg else Lexer.Int neg n.

Lemma run_decimal n rest :
  Lexer.run Lexer.Idle (Encoder.decimal n ++ rest)
  = Lexer.run (number_state false n) rest.
Proof.
  unfold number_state. destruct (N.eqb_spec n 0) as [->|Hn].
  { rewrite decimal_zero. cbn [app]. now lex_step. }
  destruct (decimal_pos n) as (c & ds & -> & Hc & Hds & Hv); [lia|].
  cbn [app]. rewrite run_cons. cbn [Lexer.step]. rewrite idle_digit by assumption.
  rewrite oapp_nil, run_int_digits by assumption. now rewrite Hv.
Qed.

Lemma run_minus_decimal n rest :
  Lexer.run Lexer.Idle (45 :: Encoder.decimal n ++ rest)
  = Lexer.run (number_state true n) rest.
Proof.
  lex_step.
  unfold number_state. destruct (N.eqb_spec n 0) as [->|Hn].
  { rewrite decimal_zero. cbn [app]. now lex_step. }
  destruct (decimal_pos n) as (c & ds & -> & Hc & Hds & Hv); [lia|].
  cbn [app]. rewrite run_cons. rewrite minus_digit by assumption.
  rewrite oapp_nil, run_int_digits by assumption. now rewrite Hv.
Qed.

Lemma run_number_end neg n rest :
  ends_number rest ->
  Lexer.run (number_state neg n) rest
  = oapp [TInt (Lexer.signed neg n)] (Lexer.run Lexer.Idle rest).
Proof.
  intros H. unfold number_state. destruct (N.eqb_spec n 0) as [->|Hn].
  - rewrite run_zero_end by assumption. now destruct neg.
  - now apply run_int_end.
Qed.

Lemma signed_abs z : Lexer.signed (z <? 0)%Z (Z.abs_N z) = z.
Proof.
  unfold Lexer.signed. rewrite N2Z.inj_abs_N.
  destruct (Z.ltb_spec z 0); lia.
Qed.

(** An integer is read back as it was written. *)
Lemma run_int_repr z rest :
  ends_number rest ->
  Lexer.run Lexer.Idle (Encoder.int_repr z ++ rest)
  = oapp [TInt z] (Lexer.run Lexer.Idle rest).
Proof.
  intros H. rewrite <- (signed_abs z) at 2. unfold Encoder.int_repr.
  destruct (z <? 0)%Z.
  - cbn [app]. rewrite run_minus_decimal. now apply run_number_end.
  - rewrite run_decimal. now apply run_number_end.
Qed.

Lemma run_number_e neg m rest :
  Lexer.run (number_state neg m) (101 :: rest)
  = Lexer.run (Lexer.Exp neg m 0) rest.
Proof.
  unfold number_state. destruct (N.eqb_spec m 0) as [->|Hm]; now lex_step.
Qed.

Lemma run_exponent neg m e rest :
  ends_number rest ->
  Lexer.run (Lexer.Exp neg m 0) (Encoder.int_repr e ++ rest)
  = oapp [TFloat (FDec neg m e)] (Lexer.run Lexer.Idle rest).
Proof.
  intros H. rewrite <- (signed_abs e) at 2. unfold Encoder.int_repr.
  destruct (decimal_digits (Z.abs_N e)) as (c & ds & -> & Hc & Hds & Hv).
  destruct (e <? 0)%Z; cbn [app].
  - lex_step. rewrite run_cons. cbn [Lexer.step].
    rewrite is_digit_true, oapp_nil by assumption.
    rewrite run_exp_digits, Hv, run_exp_end by assumption.
    now rewrite Z.sub_0_r.
  - rewrite run_cons. cbn [Lexer.step]. rewrite is_digit_true by assumption.
    repeat btest. rewrite oapp_nil.
    rewrite run_exp_digits, Hv, run_exp_end by assumption.
    now rewrite Z.sub_0_r.
Qed.

(** A float is read back as it was written. *)
Lemma run_float_repr f rest :
  ends_number rest ->
  Lexer.run Lexer.Idle (Encoder.float_repr f ++ rest)
  = oapp [TFloat f] (Lexer.run Lexer.Idle rest).
Proof.
  intros H. destruct f as [|[|]|neg m e]; cbn [Encoder.float_repr].
  - unfold Encoder.lit_NaN. cbn [app]. now do 3 lex_step.
  - unfold Encoder.lit_Infinity. cbn [app]. now do 9 lex_step.
  - unfold Encoder.lit_Infinity. cbn [app]. now do 8 lex_step.
  - destruct neg; cbn [app]; rewrite <- app_assoc; cbn [app].
    + rewrite run_minus_decimal, run_number_e. now apply run_exponent.
    + rewrite run_decimal, run_number_e. now apply run_exponent.
Qed.

Lemma run_null rest :
  Lexer.run Lexer.Idle (Encoder.lit_null ++ rest)
  = oapp [TNull] (Lexer.run Lexer.Idle rest).
Proof. unfold Encoder.lit_null. cbn [app]. now do 4 lex_step. Qed.

Lemma run_bool (v : bool) rest :
  Lexer.run Lexer.Idle ((if v then Encoder.lit_true else Encoder.lit_false) ++ rest)
  = oapp [TBool v] (Lexer.run Lexer.Idle rest).
Proof.
  destruct v; [unfold Encoder.lit_true|unfold Encoder.lit_false]; cbn [app].
  - now do 4 lex_step.
  - now do 5 lex_step.
Qed.

(** *** Hexadecimal escapes *)

Lemma hexval_hexdigit d : d < 16 -> Lexer.hexval (Encoder.hexdigit d) = Some d.
Proof.
  intros Hd. unfold Lexer.hexval, Encoder.hexdigit, in_range.
  btests; f_equal; lia.
Qed.

Lemma run_hex4 acc hi n rest :
  n < 65536 ->
  Lexer.run (Lexer.Uni acc hi 4 0) (Encoder.hex 4 n ++ rest)
  = Lexer.run (Lexer.uni_done acc hi n) rest.
Proof.
  intros Hn. cbn [Encoder.hex app].
  do 4 (rewrite run_cons; cbn [Lexer.step];
        rewrite hexval_hexdigit by apply mod16_lt; rewrite ?oapp_nil).
  f_equal. f_equal.
  pose proof (N.div_mod n 16 ltac:(lia)) as H0.
  pose proof (N.div_mod (n / 16) 16 ltac:(lia)) as H1.
  pose proof (N.div_mod (n / 16 / 16) 16 ltac:(lia)) as H2.
  pose proof (N.div_mod (n / 16 / 16 / 16) 16 ltac:(lia)) as H3.
  pose proof (mod16_lt n). pose proof (mod16_lt (n / 16)).
  pose proof (mod16_lt (n / 16 / 16)). pose proof (mod16_lt (n / 16 / 16 / 16)).
  set (r0 := n mod 16) in *. set (r1 := (n / 16) mod 16) in *.
  set (r2 := (n / 16 / 16) mod 16) in *.
  set (r3 := (n / 16 / 16 / 16) mod 16) in *.
  set (q4 := n / 16 / 16 / 16 / 16) in *. set (q3 := n / 16 / 16 / 16) in *.
  set (q2 := n / 16 / 16) in *. set (q1 := n / 16) in *.
  clearbody r0 r1 r2 r3 q4 q3 q2 q1. lia.
Qed.

(** *** Strings *)

(** A Unicode scalar value: a code point that is no surrogate. *)
Definition is_scalar (c : N) : bool :=
  (c <? 0xD800) || in_range 0xE000 0x10FFFF c.

Lemma land_shiftl_low a k c : c < 2 ^ k -> N.land (N.shiftl a k) c = 0.
Proof.
  intros Hc. apply N.bits_inj. intros i. rewrite N.land_spec, N.bits_0.
  destruct (N.lt_ge_cases i k) as [Hi|Hi].
  - now rewrite N.shiftl_spec_low.
  - destruct (N.eq_dec c 0) as [->|Hc0]; [now rewrite N.bits_0, andb_false_r|].
    rewrite (N.bits_above_log2 c i), andb_false_r; [reflexivity|].
    apply N.log2_lt_pow2; [lia|].
    apply N.lt_le_trans with (2 ^ k); [assumption|].
    apply N.pow_le_mono_r; lia.
Qed.

Lemma lor_shiftl_low a k c :
  c < 2 ^ k -> N.lor (N.shiftl a k) c = a * 2 ^ k + c.
Proof.
  intros Hc. pose proof (land_shiftl_low a k c Hc) as H.
  rewrite <- N.lxor_lor, <- N.add_nocarry_lxor by assumption.
  now rewrite N.shiftl_mul_pow2.
Qed.

Lemma mod1024_lt n : n mod 1024 < 1024.
Proof. apply N.mod_lt; lia. Qed.

(** The surrogate pair the encoder writes for [0x10000 + n], and the
    code point the decoder makes of it. *)
Lemma surrogate_pair n :
  n < 0x100000 ->
  let hi := N.lor 0xD800 (N.land (N.shiftr n 10) 0x3FF) in
  let lo := N.lor 0xDC00 (N.land n 0x3FF) in
  0xD800 <= hi <= 0xDBFF /\ 0xDC00 <= lo <= 0xDFFF
  /\ 0x10000 + N.lor (N.shiftl (hi - 0xD800) 10) (lo - 0xDC00) = 0x10000 + n.
Proof.
  intros Hn hi lo.
  assert (Hhi : hi = 0xD800 + n / 1024).
  { unfold hi. change 0x3FF with (N.ones 10). rewrite N.land_ones.
    rewrite N.shiftr_div_pow2. change (2 ^ 10) with 1024.
    assert (n / 1024 < 1024) by (apply N.Div0.div_lt_upper_bound; lia).
    rewrite N.mod_small by assumption.
    change 0xD800 with (N.shiftl 54 10) at 1.
    rewrite lor_shiftl_low by assumption. reflexivity. }
  assert (Hlo : lo = 0xDC00 + n mod 1024).
  { unfold lo. change 0x3FF with (N.ones 10). rewrite N.land_ones.
    change (2 ^ 10) with 1024. change 0xDC00 with (N.shiftl 55 10) at 1.
    rewrite lor_shiftl_low by apply mod1024_lt. reflexivity. }
  assert (n / 1024 < 1024) by (apply N.Div0.div_lt_upper_bound; lia).
  pose proof (mod1024_lt n). pose proof (N.div_mod n 1024 ltac:(lia)) as Hdm.
  rewrite Hhi, Hlo. clear Hhi Hlo hi lo.
  set (q := n / 1024) in *. set (r := n mod 1024) in *. clearbody q r.
  replace (0xD800 + q - 0xD800) with q by lia.
  replace (0xDC00 + r - 0xDC00) with r by lia.
  rewrite lor_shiftl_low by assumption. change (2 ^ 10) with 1024. lia.
Qed.

Lemma in_str_plain acc c :
  32 <= c -> c <> 34 -> c <> 92 ->
  Lexer.in_str acc c = Some ([], Lexer.Str (c :: acc)).
Proof. intros. unfold Lexer.in_str. btests; reflexivity. Qed.

(** An escape is read back as the character it stands for. *)
Lemma run_escape acc c rest :
  is_scalar c = true ->
  Lexer.run (Lexer.Str acc) (Encoder.escape c ++ rest)
  = Lexer.run (Lexer.Str (c :: acc)) rest.
Proof.
  intros Hc. unfold Encoder.escape.
  repeat match goal with
         | |- context [if ?x =? ?k then _ else _] =>
           destruct (N.eqb_spec x k) as [->|];
             [cbn [app]; now do 2 lex_step|]
         end.
  destruct (in_range 32 126 c) eqn:Hr.
  { unfold in_range in Hr. apply andb_prop in Hr as [Hlo _].
    apply N.leb_le in Hlo. cbn [app]. rewrite run_cons. cbn [Lexer.step].
    rewrite in_str_plain by assumption. apply oapp_nil. }
  unfold is_scalar, in_range in Hc.
  destruct (N.ltb_spec c 65536) as [Hb|Hb].
  - unfold Encoder.uXXXX. cbn [app]. do 2 lex_step.
    rewrite run_hex4 by assumption. unfold Lexer.uni_done, Lexer.uni_fresh.
    unfold Lexer.is_high, in_range. revert Hc. btests; try discriminate; reflexivity.
  - assert (Hn : c - 65536 < 0x100000) by (revert Hc; btests; try discriminate; lia).
    destruct (surrogate_pair (c - 65536) Hn) as (Hhi & Hlo & Hv).
    cbv zeta in *.
    remember (N.lor 55296 (N.land (N.shiftr (c - 65536) 10) 1023)) as hi.
    remember (N.lor 56320 (N.land (c - 65536) 1023)) as lo.
    unfold Encoder.uXXXX. rewrite <- app_assoc. cbn [app].
    do 2 lex_step. rewrite run_hex4 by lia.
    unfold Lexer.uni_done at 1, Lexer.uni_fresh at 1.
    replace (Lexer.is_high hi) with true
      by (unfold Lexer.is_high, in_range; symmetry; btests; reflexivity).
    do 2 lex_step. rewrite run_hex4 by lia.
    unfold Lexer.uni_done.
    replace (Lexer.is_low lo) with true
      by (unfold Lexer.is_low, in_range; symmetry; btests; reflexivity).
    rewrite Hv. f_equal. f_equal. f_equal. lia.
Qed.

Definition str_wf (s : pystr) : bool := forallb is_scalar s.

Lemma run_escapes s : forall acc rest,
  str_wf s = true ->
  Lexer.run (Lexer.Str acc) (flat_map Encoder.escape s ++ rest)
  = Lexer.run (Lexer.Str (rev s ++ acc)) rest.
Proof.
  induction s as [|c s IH]; intros acc rest Hs; [reflexivity|].
  cbn [str_wf forallb] in Hs. apply andb_prop in Hs as [Hc Hs].
  cbn [flat_map rev]. rewrite <- !app_assoc. cbn [app].
  rewrite run_escape by assumption. now apply IH.
Qed.

(** A string is read back as it was written. *)
Lemma run_quote s rest :
  str_wf s = true ->
  Lexer.run Lexer.Idle (Encoder.quote s ++ rest)
  = oapp [TStr s] (Lexer.run Lexer.Idle rest).
Proof.
  intros Hs. unfold Encoder.quote. cbn [app]. lex_step.
  rewrite <- app_assoc, run_escapes by assumption. cbn [app].
  rewrite run_cons. cbn [Lexer.step].
  change (Lexer.in_str (rev s ++ []) 34)
    with (Some ([TStr (rev (rev s ++ []))], Lexer.Idle)).
  now rewrite app_nil_r, rev_involutive.
Qed.

(** ** [json.loads] after [json.dumps] *)

(** The tokens of the text of a value. *)
Fixpoint tokens (v : json) : list token :=
  match v with
  | JNull => [TNull]
  | JBool x => [TBool x]
  | JInt z => [TInt z]
  | JFloat f => [TFloat f]
  | JStr s => [TStr s]
  | JArr l => TLBracket :: Encoder.join [TComma] (map tokens l) ++ [TRBracket]
  | JObj d =>
    TLBrace
    :: Encoder.join [TComma]
         (map (fun kv => TStr (fst kv) :: TColon :: tokens (snd kv)) d)
    ++ [TRBrace]
  end.

Fixpoint distinct (l : list pystr) : bool :=
  match l with
  | [] => true
  | x :: l' => negb (existsb (pystr_eqb x) l') && distinct l'
  end.

(** The values [json.dumps] and [json.loads] carry unchanged: strings of
    Unicode scalar values, and dicts as Python has them, without a
    repeated key. *)
Fixpoint json_wf (v : json) : bool :=
  match v with
  | JStr s => str_wf s
  | JArr l => forallb json_wf l
  | JObj d =>
    distinct (map fst d)
    && forallb (fun kv => str_wf (fst kv) && json_wf (snd kv)) d
  | _ => true
  end.

Lemma ends_number_comma rest : ends_number (Encoder.item_separator ++ rest).
Proof. cbn. repeat split; discriminate. Qed.

Lemma ends_number_bracket rest : ends_number (93 :: rest).
Proof. cbn. repeat split; discriminate. Qed.

Lemma ends_number_brace rest : ends_number (125 :: rest).
Proof. cbn. repeat split; discriminate. Qed.

Lemma run_item_separator rest :
  Lexer.run Lexer.Idle (Encoder.item_separator ++ rest)
  = oapp [TComma] (Lexer.run Lexer.Idle rest).
Proof. unfold Encoder.item_separator. cbn [app]. now do 2 lex_step. Qed.

Lemma run_key_separator rest :
  Lexer.run Lexer.Idle (Encoder.key_separator ++ rest)
  = oapp [TColon] (Lexer.run Lexer.Idle rest).
Proof. unfold Encoder.key_separator. cbn [app]. now do 2 lex_step. Qed.

Lemma join_two {A} (sep : list A) x y l :
  Encoder.join sep (x :: y :: l) = x ++ sep ++ Encoder.join sep (y :: l).
Proof. reflexivity. Qed.

(** The texts of the items of a container, joined, give the tokens of the
    items, joined. *)
Lemma run_join {A} (text : A -> pystr) (toks : A -> list token) l :
  Forall (fun x => forall rest, ends_number rest ->
            Lexer.run Lexer.Idle (text x ++ rest)
            = oapp (toks x) (Lexer.run Lexer.Idle rest)) l ->
  forall rest, ends_number rest ->
    Lexer.run Lexer.Idle
      (Encoder.join Encoder.item_separator (map text l) ++ rest)
    = oapp (Encoder.join [TComma] (map toks l)) (Lexer.run Lexer.Idle rest).
Proof.
  induction 1 as [|x l Hx Hl IH]; intros rest Hrest.
  - cbn [map Encoder.join app]. now rewrite oapp_nil.
  - destruct l as [|y l]; [now apply Hx|].
    cbn [map] in *. rewrite (@join_two N), (@join_two token).
    rewrite <- !app_assoc, Hx by apply ends_number_comma.
    rewrite run_item_separator, IH by assumption.
    now rewrite !oapp_oapp, <- !app_assoc.
Qed.

(** Lexing the text of a value gives its tokens. *)
Lemma run_dumps v :
  json_wf v = true ->
  forall rest, ends_number rest ->
    Lexer.run Lexer.Idle (json_dumps v ++ rest)
    = oapp (tokens v) (Lexer.run Lexer.Idle rest).
Proof.
  unfold json_dumps.
  induction v as [| x | z | f | s | l IH | d IH] using json_ind;
    intros Hwf rest Hrest; cbn [Encoder.dumps tokens json_wf] in *.
  - apply run_null.
  - apply (run_bool x).
  - now apply run_int_repr.
  - now apply run_float_repr.
  - now apply run_quote.
  - cbn [app]. lex_step. rewrite <- app_assoc.
    rewrite (run_join Encoder.dumps tokens).
    + cbn [app]. lex_step. now rewrite !oapp_oapp, <- app_assoc.
    + rewrite forallb_forall in Hwf. rewrite Forall_forall in *.
      intros x Hx. auto.
    + apply ends_number_bracket.
  - apply andb_prop in Hwf as [_ Hwf]. cbn [app]. lex_step. rewrite <- app_assoc.
    rewrite (run_join
               (fun kv => Encoder.quote (fst kv) ++ Encoder.key_separator
                          ++ Encoder.dumps (snd kv))
               (fun kv => TStr (fst kv) :: TColon :: tokens (snd kv))).
    + cbn [app]. lex_step. now rewrite !oapp_oapp, <- app_assoc.
    + rewrite forallb_forall in Hwf. rewrite Forall_forall in *.
      intros [k x] Hx rest' Hrest'. specialize (Hwf _ Hx). specialize (IH _ Hx).
      cbn [fst snd] in *. apply andb_prop in Hwf as [Hk Hx'].
      rewrite <- !app_assoc, run_quote, run_key_separator, IH by assumption.
      now rewrite !oapp_oapp.
    + apply ends_number_brace.
Qed.

(** *** The parser on the tokens of a value *)

(** A token with which a value may begin. *)
Definition starts_value (t : token) : Prop :=
  match t with
  | TRBrace | TRBracket | TColon | TComma => False
  | _ => True
  end.

Lemma tokens_head v : exists t ts, tokens v = t :: ts /\ starts_value t.
Proof. destruct v; cbn [tokens]; eexists; eexists; split; reflexivity || exact I. Qed.

Lemma step_arr_first stk t :
  starts_value t ->
  Parser.step (Parser.ArrFirst stk) t
  = Parser.step (Parser.Value (Parser.FArr [] :: stk)) t.
Proof. destruct t; cbn; tauto. Qed.

Lemma run_arr_first stk x rest :
  Parser.run (Parser.ArrFirst stk) (tokens x ++ rest)
  = Parser.run (Parser.Value (Parser.FArr [] :: stk)) (tokens x ++ rest).
Proof.
  destruct (tokens_head x) as (t & ts & -> & Hst). cbn [app Parser.run].
  now rewrite step_arr_first.
Qed.

Lemma dict_set_fresh acc k v :
  ~ In k (map fst acc) -> dict_set acc k v = acc ++ [(k, v)].
Proof.
  induction acc as [|[k' v'] acc IH]; intros Hk; [reflexivity|].
  cbn [dict_set map fst In app] in *.
  rewrite pystr_eqb_neq by tauto. rewrite IH by tauto. reflexivity.
Qed.

Lemma existsb_eqb_In x l : existsb (pystr_eqb x) l = true <-> In x l.
Proof.
  rewrite existsb_exists. split.
  - intros (y & Hy & Hxy). apply pystr_eqb_eq in Hxy. now subst.
  - intros H. exists x. split; [assumption|apply pystr_eqb_refl].
Qed.

Lemma distinct_NoDup l : distinct l = true -> NoDup l.
Proof.
  induction l as [|x l IH]; cbn [distinct]; intros H; constructor.
  - apply andb_prop in H as [H _]. rewrite <- existsb_eqb_In.
    now destruct (existsb (pystr_eqb x) l).
  - apply andb_prop in H as [_ H]. auto.
Qed.

Section ParseTokens.

Variable stk : list Parser.frame.

(** The elements of an array after the first, each behind its comma. *)
Lemma run_elements l : forall acc rest,
  Forall (fun x => forall stk' rest',
            Parser.run (Parser.Value stk') (tokens x ++ rest')
            = Parser.run (Parser.complete x stk') rest') l ->
  Parser.run (Parser.ArrNext acc stk)
    (flat_map (fun x => TComma :: tokens x) l ++ TRBracket :: rest)
  = Parser.run (Parser.complete (JArr (rev acc ++ l)) stk) rest.
Proof.
  induction l as [|x l IH]; intros acc rest Hl.
  - cbn [flat_map app Parser.run Parser.step obind]. now rewrite app_nil_r.
  - inversion Hl as [|? ? Hx Hl']; subst.
    cbn [flat_map app Parser.run Parser.step obind]. rewrite <- app_assoc, Hx.
    cbn [Parser.complete]. rewrite IH by assumption.
    cbn [rev]. now rewrite <- app_assoc.
Qed.

(** The members of an object after the first, each behind its comma. *)
Lemma run_members d : forall acc rest,
  Forall (fun kv => forall stk' rest',
            Parser.run (Parser.Value stk') (tokens (snd kv) ++ rest')
            = Parser.run (Parser.complete (snd kv) stk') rest') d ->
  NoDup (map fst (acc ++ d)) ->
  Parser.run (Parser.ObjNext acc stk)
    (flat_map (fun kv => TComma :: TStr (fst kv) :: TColon :: tokens (snd kv)) d
     ++ TRBrace :: rest)
  = Parser.run (Parser.complete (JObj (acc ++ d)) stk) rest.
Proof.
  induction d as [|[k x] d IH]; intros acc rest Hd Hnd.
  - cbn [flat_map app Parser.run Parser.step obind]. now rewrite app_nil_r.
  - inversion Hd as [|? ? Hx Hd']; subst. cbn [fst snd] in *.
    cbn [flat_map app Parser.run Parser.step obind]. rewrite <- app_assoc, Hx.
    cbn [Parser.complete]. rewrite dict_set_fresh.
    + rewrite IH; rewrite <- ?app_assoc; auto.
    + rewrite map_app in Hnd. cbn [map fst] in Hnd.
      apply NoDup_remove_2 in Hnd. intros Hin. apply Hnd.
      apply in_or_app. now left.
Qed.

End ParseTokens.

(** Joined with commas, or each behind a comma after the first. *)
Lemma join_commas {A} (f : A -> list token) x l :
  Encoder.join [TComma] (map f (x :: l))
  = f x ++ flat_map (fun y => TComma :: f y) l.
Proof.
  revert x. induction l as [|y l IH]; intros x.
  - cbn. now rewrite app_nil_r.
  - cbn [map] in *. rewrite join_two, IH. reflexivity.
Qed.

(** The parser makes of the tokens of a value the value. *)
Lemma run_tokens v :
  json_wf v = true ->
  forall stk rest,
    Parser.run (Parser.Value stk) (tokens v ++ rest)
    = Parser.run (Parser.complete v stk) rest.
Proof.
  induction v as [| x | z | f | s | l IH | d IH] using json_ind;
    intros Hwf stk rest; cbn [tokens json_wf] in *; try reflexivity.
  - destruct l as [|x l]; [reflexivity|].
    rewrite join_commas. cbn [app Parser.run Parser.step Parser.value obind].
    inversion IH as [|? ? Hx Hl]; subst. cbn [forallb] in Hwf.
    apply andb_prop in Hwf as [Hwx Hwl].
    rewrite <- !app_assoc, run_arr_first, Hx by assumption.
    cbn [Parser.complete app].
    rewrite run_elements; [reflexivity|].
    rewrite forallb_forall in Hwl. rewrite Forall_forall in *. auto.
  - destruct d as [|[k x] d]; [reflexivity|].
    rewrite (join_commas (fun kv => TStr (fst kv) :: TColon :: tokens (snd kv))).
    cbn [fst snd app Parser.run Parser.step Parser.value obind].
    inversion IH as [|? ? Hx Hd]; subst. cbn [forallb map fst snd] in *.
    apply andb_prop in Hwf as [Hnd Hwf]. apply andb_prop in Hwf as [Hwx Hwd].
    apply andb_prop in Hwx as [_ Hwx].
    rewrite <- !app_assoc, Hx by assumption. cbn [Parser.complete dict_set app].
    rewrite run_members; [reflexivity| |].
    + rewrite forallb_forall in Hwd. rewrite Forall_forall in *.
      intros kv Hkv. specialize (Hwd _ Hkv). apply andb_prop in Hwd as [_ Hwd].
      auto.
    + cbn [app map fst]. apply distinct_NoDup. exact Hnd.
Qed.

(** [json.loads(json.dumps(v)) == v] *)
Lemma loads_dumps v : json_wf v = true -> json_loads (json_dumps v) = Some v.
Proof.
  intros Hwf. unfold json_loads, Lexer.lex.
  rewrite <- (app_nil_r (json_dumps v)), run_dumps by (assumption || exact I).
  cbn [Lexer.run Lexer.finish oapp option_map obind]. rewrite app_nil_r.
  unfold Parser.parse. rewrite <- (app_nil_r (tokens v)), run_tokens by assumption.
  reflexivity.
Qed.

(** ** The request *)

Lemma length_hex w : forall n, length (Encoder.hex w n) = w.
Proof.
  induction w as [|w IH]; intros n; [reflexivity|].
  cbn [Encoder.hex]. rewrite length_app, IH. cbn. lia.
Qed.

Lemma hexdigit_not_dash d : d < 16 -> (Encoder.hexdigit d =? 45) = false.
Proof.
  intros Hd. unfold Encoder.hexdigit.
  destruct (N.ltb_spec d 10); btests; reflexivity.
Qed.

Lemma hex_not_dash w : forall n,
  Forall (fun c => (c =? 45) = false) (Encoder.hex w n).
Proof.
  induction w as [|w IH]; intros n; cbn [Encoder.hex]; [constructor|].
  apply Forall_app. split; [apply IH|].
  repeat constructor. apply hexdigit_not_dash, mod16_lt.
Qed.

(** The value of hexadecimal digits. *)
Definition hex_value (s : pystr) : N :=
  fold_left (fun a c => a * 16 + match Lexer.hexval c with
                                 | Some d => d
                                 | None => 0
                                 end) s 0.

Lemma hex_value_hex w : forall n, hex_value (Encoder.hex w n) = n mod 16 ^ N.of_nat w.
Proof.
  unfold hex_value. induction w as [|w IH]; intros n.
  - cbn. now rewrite N.mod_1_r.
  - cbn [Encoder.hex]. rewrite fold_left_app, IH. cbn [fold_left].
    rewrite hexval_hexdigit by apply mod16_lt.
    rewrite Nat2N.inj_succ, N.pow_succ_r', N.Div0.mod_mul_r. lia.
Qed.

(** The format of [str(UUID)] on any 32 characters. *)
Definition dashed (hex : pystr) : pystr :=
  firstn 8 hex ++ 45 :: slice 8 12 hex ++ 45 :: slice 12 16 hex
  ++ 45 :: slice 16 20 hex ++ 45 :: skipn 20 hex.

Lemma uuid_str_dashed u : uuid_str u = dashed (Encoder.hex 32 u).
Proof. reflexivity. Qed.

Lemma Forall_firstn_skipn {A} (P : A -> Prop) n l :
  Forall P l -> Forall P (firstn n l) /\ Forall P (skipn n l).
Proof.
  intros H. rewrite <- (firstn_skipn n l) in H. now apply Forall_app in H.
Qed.

(** The five groups of a UUID, put together again. *)
Lemma dashed_groups (h : pystr) :
  firstn 8 h ++ slice 8 12 h ++ slice 12 16 h ++ slice 16 20 h ++ skipn 20 h = h.
Proof.
  unfold slice.
  change (12 - 8)%nat with 4%nat. change (16 - 12)%nat with 4%nat.
  change (20 - 16)%nat with 4%nat.
  replace (skipn 20 h) with (skipn 4 (skipn 16 h)) by apply skipn_skipn.
  rewrite firstn_skipn.
  replace (skipn 16 h) with (skipn 4 (skipn 12 h)) by apply skipn_skipn.
  rewrite firstn_skipn.
  replace (skipn 12 h) with (skipn 4 (skipn 8 h)) by apply skipn_skipn.
  rewrite firstn_skipn. apply firstn_skipn.
Qed.

Lemma filter_dash (a c : pystr) :
  filter (fun x => negb (x =? 45)) (a ++ 45 :: c)
  = filter (fun x => negb (x =? 45)) (a ++ c).
Proof. now rewrite !filter_app. Qed.

Lemma undash h :
  length h = 32%nat -> Forall (fun c => (c =? 45) = false) h ->
  filter (fun c => negb (c =? 45)) (dashed h) = h.
Proof.
  intros _ Hh. unfold dashed.
  rewrite filter_dash.
  rewrite (app_assoc (firstn 8 h)), filter_dash, <- app_assoc.
  rewrite (app_assoc (firstn 8 h)), (app_assoc (firstn 8 h ++ _)), filter_dash,
    <- !app_assoc.
  rewrite (app_assoc (firstn 8 h)), (app_assoc (firstn 8 h ++ _)),
    (app_assoc ((firstn 8 h ++ _) ++ _)), filter_dash, <- !app_assoc.
  rewrite dashed_groups. apply forallb_filter_id.
  apply forallb_forall. rewrite Forall_forall in Hh. intros c Hc.
  now rewrite (Hh c Hc).
Qed.

Lemma length_dashed h : length h = 32%nat -> length (dashed h) = 36%nat.
Proof.
  intros Hlen. unfold dashed, slice.
  repeat (rewrite ?length_app, ?length_firstn, ?length_skipn; cbn [length]).
  rewrite Hlen. reflexivity.
Qed.

Lemma dashed_ascii h : length h = 32%nat -> ascii h -> ascii (dashed h).
Proof.
  intros _ Hh. unfold dashed, slice, ascii in *.
  repeat first [ apply Forall_app; split
               | apply Forall_cons; [reflexivity|]
               | apply (proj1 (Forall_firstn_skipn _ _ _ ltac:(eassumption)))
               | apply (proj2 (Forall_firstn_skipn _ _ _ ltac:(eassumption)))
               | apply (proj1 (Forall_firstn_skipn _ _ _
                         (proj2 (Forall_firstn_skipn _ _ _ ltac:(eassumption))))) ].
Qed.

(** The text of a UUID: 36 ASCII characters, from which the 128 bits can
    be read back. *)
Lemma length_uuid_str u : length (uuid_str u) = 36%nat.
Proof. rewrite uuid_str_dashed. apply length_dashed, length_hex. Qed.

Lemma uuid_str_ascii u : ascii (uuid_str u).
Proof.
  rewrite uuid_str_dashed. apply dashed_ascii; [apply length_hex|apply hex_ascii].
Qed.

Lemma uuid_str_inj u1 u2 :
  uuid_str u1 = uuid_str u2 -> u1 mod 2 ^ 128 = u2 mod 2 ^ 128.
Proof.
  intros H. apply (f_equal (filter (fun c => negb (c =? 45)))) in H.
  rewrite !uuid_str_dashed, !undash in H
    by (apply length_hex || apply hex_not_dash).
  apply (f_equal hex_value) in H. rewrite !hex_value_hex in H. exact H.
Qed.

Lemma int_from_bytes_bound bs : forall a,
  fold_left (fun a x => a * 256 + Byte.to_N x) bs a
  < (a + 1) * 256 ^ N.of_nat (length bs).
Proof.
  induction bs as [|x bs IH]; intros a.
  - cbn. lia.
  - cbn [fold_left length]. specialize (IH (a * 256 + Byte.to_N x)).
    pose proof (Byte.to_N_bounded x).
    rewrite Nat2N.inj_succ, N.pow_succ_r'.
    set (P := 256 ^ N.of_nat (length bs)) in *. clearbody P.
    eapply N.lt_le_trans; [exact IH|]. nia.
Qed.

Lemma lor_lt_pow2 a c n : a < 2 ^ n -> c < 2 ^ n -> N.lor a c < 2 ^ n.
Proof.
  intros Ha Hc. destruct (N.eq_dec a 0) as [->|Ha0]; [now rewrite N.lor_0_l|].
  destruct (N.eq_dec c 0) as [->|Hc0]; [now rewrite N.lor_0_r|].
  apply N.log2_lt_pow2.
  - assert (N.lor a c <> 0) by (rewrite N.lor_eq_0_iff; tauto). lia.
  - rewrite N.log2_lor. apply N.max_lub_lt; apply N.log2_lt_pow2; lia.
Qed.

(** A UUID is a number of 128 bits. *)
Lemma uuid4_bound bs : length bs = 16%nat -> uuid4 bs < 2 ^ 128.
Proof.
  intros Hlen. unfold uuid4.
  assert (H : int_from_bytes bs < 2 ^ 128).
  { unfold int_from_bytes. pose proof (int_from_bytes_bound bs 0) as H.
    rewrite Hlen in H. exact H. }
  apply lor_lt_pow2; [|reflexivity].
  eapply N.le_lt_trans; [apply N.ldiff_le_l|].
  apply lor_lt_pow2; [|reflexivity].
  eapply N.le_lt_trans; [apply N.ldiff_le_l|]. exact H.
Qed.

Lemma ascii_str_wf s : ascii s -> str_wf s = true.
Proof.
  unfold str_wf. induction 1 as [|c s Hc Hs IH]; [reflexivity|].
  cbn [forallb]. rewrite IH, andb_true_r. unfold is_scalar.
  destruct (N.ltb_spec c 55296); [reflexivity|lia].
Qed.

(** The dict [params or {}] of a call. *)
Definition params_wf (params : option dict) : bool :=
  json_wf (JObj (params_or_empty params)).

Lemma request_wf env method params :
  str_wf method = true -> params_wf params = true ->
  json_wf (request env method params) = true.
Proof.
  intros Hm Hp. unfold request. cbn [json_wf map fst snd forallb].
  rewrite (ascii_str_wf _ (uuid_str_ascii _)), Hm.
  unfold params_wf in Hp. cbn [json_wf] in Hp. rewrite Hp. reflexivity.
Qed.

(** The payload is the text of the request and a newline, and [json.loads]
    reads the request back from it. *)
Lemma payload_decodes env method params :
  str_wf method = true -> params_wf params = true ->
  Utf8.decode (payload env method params)
  = Some (json_dumps (request env method params) ++ [10])
  /\ json_loads (json_dumps (request env method params) ++ [10])
     = Some (request env method params).
Proof.
  intros Hm Hp. destruct (payload_encodes env method params) as [_ Hbytes].
  split.
  - unfold Utf8.decode. rewrite Hbytes. apply decode_N_ascii.
    apply ascii_app; [apply dumps_ascii|repeat constructor].
  - apply json_loads_newline, loads_dumps. now apply request_wf.
Qed.

(** The payload is what the call hands to [sendall]. *)
Lemma call_daemon_sends env method params w :
  connect_error env = None ->
  In (Sendall (payload env method params))
     (trace (snd (call_daemon env method params w))).
Proof.
  intros Hc. destruct (sendall_error env) as [errno|] eqn:Hs.
  { rewrite (call_daemon_sendall_fails _ _ _ _ _ Hc Hs). cbn [snd emit trace].
    apply in_or_app. right. cbn. auto. }
  rewrite call_daemon_exchange by assumption.
  match goal with |- context [recv_loop ?i ?e ?r ?w0] =>
    destruct (recv_loop_trace i e r w0) as [n Hn];
    destruct (recv_loop i e r w0) as [[response|e'|] w1] end;
    cbn [snd finish_call] in *; subst w1; unfold emit; cbn [trace];
    rewrite !in_app_iff; cbn [In]; tauto.
Qed.


